(** * The transaction cache of drt-go-chain-storage (package txcache)

    A shallow embedding of [txcache/txCache.go], [txcache/eviction.go] and
    [txcache/selectionSessionWrapper.go].

    Byte strings ([[]byte], Go [string] keys) are [string]; [uint64] and
    [uint32] values are only compared and converted to wider types, never
    used in wrapping arithmetic, and are [N] (nonces, prices) or [Z]
    (thresholds, counters); [*big.Int] is [option Z], with [None] the nil
    pointer; Go maps and the concurrent maps are [gmap string _].  The
    embedding is sequential: the mutexes are left out, the atomic flag
    [isEvictionInProgress] is a field of the state. *)

From stdpp Require Import gmap strings list fin_maps numbers sorting.

Open Scope string_scope.
Open Scope list_scope.

(** ** Transactions *)

(** [data.TransactionHandler], through the getters the cache calls. *)
Record Transaction := {
  Nonce : N;
  SndAddr : string;
  GasLimit : N;
  GasPrice : N;
  Value : option Z;
}.

(** Modelled from the spec: the struct [WrappedTransaction] is declared in a
    file that is not among the sources.  The spec lists its fields (Fee,
    TransferredValue, FeePayer, Size, PricePerGasUnit, TxHash) next to the
    handler; the names are those the three files and the tests use.  A nil
    handler is [None]. *)
Record WrappedTransaction := {
  Tx : option Transaction;
  TxHash : string;
  Size : Z;
  PricePerGasUnit : N;
  TransferredValue : option Z;
  FeePayer : string;
  Fee : option Z;
}.

#[global] Instance Transaction_eq_dec : EqDecision Transaction.
Proof. solve_decision. Defined.

#[global] Instance WrappedTransaction_eq_dec : EqDecision WrappedTransaction.
Proof. solve_decision. Defined.

(** [tx.Tx.GetNonce()] and the like.  The stores only receive transactions
    that passed the nil guard of [AddTx]; on a nil handler (where the Go call
    panics) the getters answer a default. *)
Definition GetNonce (tx : WrappedTransaction) : N := from_option Nonce 0%N (Tx tx).
Definition GetSndAddr (tx : WrappedTransaction) : string := from_option SndAddr "" (Tx tx).
Definition GetGasPrice (tx : WrappedTransaction) : N := from_option GasPrice 0%N (Tx tx).

(** Modelled from the spec: the interface [MempoolHost] has [ComputeTxFee]
    and [GetTransferredValue]; [precomputeFields], which calls them, lives in
    a file that is not among the sources.  The spec lists the precomputed
    fields (Fee, TransferredValue, FeePayer "sender, unless relayed",
    PricePerGasUnit), says they are populated once from the host collaborator
    and that the precompute is idempotent, and gives no formula for FeePayer
    and PricePerGasUnit: these two are taken as further functions of the
    handler (and of the fee), carried with the host. *)
Record MempoolHost := {
  ComputeTxFee : Transaction → option Z;
  GetTransferredValue : Transaction → option Z;
  decideFeePayer : Transaction → string;
  computePricePerGasUnit : Transaction → option Z → N;
}.

(** Modelled from the spec: the fields are computed from the handler and the
    host alone; hash and size are left as the caller set them. *)
Definition precomputeFields (host : MempoolHost) (tx : WrappedTransaction) : WrappedTransaction :=
  match Tx tx with
  | None => tx
  | Some t =>
      {| Tx := Some t;
         TxHash := TxHash tx;
         Size := Size tx;
         PricePerGasUnit := computePricePerGasUnit host t (ComputeTxFee host t);
         TransferredValue := GetTransferredValue host t;
         FeePayer := decideFeePayer host t;
         Fee := ComputeTxFee host t |}
  end.

(** ** Configuration *)

(** [ConfigSourceMe]; the numeric options are [uint32] in the tests'
    literals. *)
Record ConfigSourceMe := {
  Name : string;
  NumChunks : Z;
  NumBytesThreshold : Z;
  NumBytesPerSenderThreshold : Z;
  CountThreshold : Z;
  CountPerSenderThreshold : Z;
  EvictionEnabled : bool;
  NumItemsToPreemptivelyEvict : Z;
}.

(** Modelled from the spec: the per-sender constraints "numBytes ≤
    NumBytesPerSenderThreshold, numTxs ≤ CountPerSenderThreshold", as
    [config.getSenderConstraints()] hands them to the map by sender. *)
Record senderConstraints := {
  maxNumTxs : Z;
  maxNumBytes : Z;
}.

Definition getSenderConstraints (config : ConfigSourceMe) : senderConstraints :=
  {| maxNumTxs := CountPerSenderThreshold config;
     maxNumBytes := NumBytesPerSenderThreshold config |}.

(** [atomic.Counter.GetUint64] of the core library: the counter holds an
    [int64] and reads as zero when negative. *)
Definition GetUint64 (c : Z) : Z := Z.max 0 c.

(** ** The map of transactions by hash *)

Module txByHashMap.

(** Modelled from the spec: "mapping TxHash → WrappedTransaction (keys
    unique).  Maintains global counters numBytes and counter".  The field
    names are those read by [txCache.go]. *)
Record t := {
  backingMap : gmap string WrappedTransaction;
  counter : Z;
  numBytes : Z;
}.

(** Modelled from the spec: the map of a new cache, with nothing in it. *)
Definition empty : t := {| backingMap := ∅; counter := 0; numBytes := 0 |}.

(** Modelled from the spec: "insert-if-absent(TxHash, tx)". *)
Definition addTx (m : t) (tx : WrappedTransaction) : t * bool :=
  match backingMap m !! TxHash tx with
  | Some _ => (m, false)
  | None =>
      ({| backingMap := <[TxHash tx := tx]> (backingMap m);
          counter := counter m + 1;
          numBytes := numBytes m + Size tx |}, true)
  end.

(** Modelled from the spec: "Remove from TxByHashMap, obtaining tx; if
    absent → return false". *)
Definition removeTx (m : t) (txHash : string) : t * option WrappedTransaction :=
  match backingMap m !! txHash with
  | None => (m, None)
  | Some tx =>
      ({| backingMap := delete txHash (backingMap m);
          counter := counter m - 1;
          numBytes := numBytes m - Size tx |}, Some tx)
  end.

(** Modelled from the spec: "GetByTxHash(h) → (tx, found)". *)
Definition getTx (m : t) (txHash : string) : option WrappedTransaction :=
  backingMap m !! txHash.

(** Modelled from the spec: "Bulk-remove those hashes from TxByHashMap";
    the number removed is returned. *)
Fixpoint RemoveTxsBulk (m : t) (txHashes : list string) : t * nat :=
  match txHashes with
  | [] => (m, 0)
  | h :: rest =>
      let '(m1, removed) := removeTx m h in
      let '(m2, n) := RemoveTxsBulk m1 rest in
      (m2, match removed with Some _ => S n | None => n end)
  end.

End txByHashMap.

(** ** The list of transactions of one sender *)

Module txListForSender.

(** Modelled from the spec: "an ordered sequence of WrappedTransaction";
    the counters [numBytes] and [numTxs] are computed from the sequence. *)
Definition totalBytes (items : list WrappedTransaction) : Z :=
  foldr (λ tx acc, Size tx + acc)%Z 0%Z items.

(** Modelled from the spec: the counter [numTxs] of the list. *)
Definition countTx (items : list WrappedTransaction) : Z :=
  Z.of_nat (length items).

(** Modelled from the spec: "numBytes ≤ NumBytesPerSenderThreshold, numTxs ≤
    CountPerSenderThreshold". *)
Definition isCapacityExceeded (c : senderConstraints) (items : list WrappedTransaction) : bool :=
  (maxNumBytes c <? totalBytes items)%Z || (maxNumTxs c <? countTx items)%Z.

(** Modelled from the spec: "ascending by nonce; ties broken by gas-price
    descending, then by hash lexicographic ascending". *)
Definition comesBefore (a b : WrappedTransaction) : bool :=
  if (GetNonce a <? GetNonce b)%N then true
  else if (GetNonce b <? GetNonce a)%N then false
  else if (GetGasPrice b <? GetGasPrice a)%N then true
  else if (GetGasPrice a <? GetGasPrice b)%N then false
  else String.ltb (TxHash a) (TxHash b).

(** Modelled from the spec: "inserts in nonce order", before the first
    transaction the new one comes before. *)
Fixpoint insertInOrder (tx : WrappedTransaction) (items : list WrappedTransaction)
  : list WrappedTransaction :=
  match items with
  | [] => [tx]
  | x :: rest =>
      if comesBefore tx x then tx :: x :: rest else x :: insertInOrder tx rest
  end.

(** Modelled from the spec: "no-op if (nonce,hash) already present". *)
Definition sameNonceAndHash (tx x : WrappedTransaction) : bool :=
  (GetNonce x =? GetNonce tx)%N && String.eqb (TxHash x) (TxHash tx).

(** Modelled from the spec: whether the list has the (nonce, hash) of [tx]. *)
Definition isPresent (tx : WrappedTransaction) (items : list WrappedTransaction) : bool :=
  existsb (sameNonceAndHash tx) items.

(** Modelled from the spec: "the list evicts its own highest-nonce
    transactions until constraints hold, returning their hashes".  The
    argument is the list back to front. *)
Fixpoint shrinkFromBack (c : senderConstraints) (reversed : list WrappedTransaction)
  : list WrappedTransaction * list string :=
  match reversed with
  | [] => ([], [])
  | x :: rest =>
      if isCapacityExceeded c (x :: rest)
      then let '(kept, evicted) := shrinkFromBack c rest in (kept, TxHash x :: evicted)
      else (x :: rest, [])
  end.

(** Modelled from the spec: "shrinks the list until per-sender constraints
    hold, returning evicted hashes". *)
Definition applySizeConstraints (c : senderConstraints) (items : list WrappedTransaction)
  : list WrappedTransaction * list string :=
  let '(kept, evicted) := shrinkFromBack c (rev items) in (rev kept, evicted).

(** Modelled from the spec: "inserts in nonce order (no-op if (nonce,hash)
    already present), then shrinks the list until per-sender constraints
    hold, returning evicted hashes". *)
Definition AddTx (c : senderConstraints) (items : list WrappedTransaction) (tx : WrappedTransaction)
  : list WrappedTransaction * bool * list string :=
  if isPresent tx items then
    let '(kept, evicted) := applySizeConstraints c items in (kept, false, evicted)
  else
    let '(kept, evicted) := applySizeConstraints c (insertInOrder tx items) in
    (kept, true, evicted).

(** Modelled from the spec: "remove every transaction with nonce ≤
    tx.nonce, returning their hashes". *)
Definition removeTransactionsWithLowerOrEqualNonceReturnHashes
    (items : list WrappedTransaction) (targetNonce : N)
  : list WrappedTransaction * list string :=
  (filter (λ tx, (targetNonce < GetNonce tx)%N) items,
   TxHash <$> filter (λ tx, (GetNonce tx ≤ targetNonce)%N) items).

(** Modelled from the spec: "remove from its per-sender list every
    transaction with nonce ≥ that lowest nonce". *)
Definition removeTransactionsWithHigherOrEqualNonce
    (items : list WrappedTransaction) (givenNonce : N) : list WrappedTransaction :=
  filter (λ tx, (GetNonce tx < givenNonce)%N) items.

(** Modelled from the spec: "the sender's transactions in reversed nonce
    order (highest nonce first)". *)
Definition getTxsReversed (items : list WrappedTransaction) : list WrappedTransaction :=
  rev items.

End txListForSender.

(** ** The map of per-sender lists *)

Module txListBySenderMap.

(** Modelled from the spec: "mapping sender → PerSenderList (keys unique).
    Maintains counter (count of senders).  Empty lists are removed
    eagerly."  The field names are those read by [txCache.go]. *)
Record t := {
  backingMap : gmap string (list WrappedTransaction);
  counter : Z;
  constraints : senderConstraints;
}.

(** Modelled from the spec: the map of a new cache, without senders. *)
Definition empty (c : senderConstraints) : t :=
  {| backingMap := ∅; counter := 0; constraints := c |}.

(** Modelled from the spec: the list stored for a sender, if there is one. *)
Definition getListForSender (m : t) (sender : string) : option (list WrappedTransaction) :=
  backingMap m !! sender.

(** Modelled from the spec: "locates or creates the per-sender list". *)
Definition getOrAddListForSender (m : t) (sender : string) : t * list WrappedTransaction :=
  match backingMap m !! sender with
  | Some items => (m, items)
  | None =>
      ({| backingMap := <[sender := []]> (backingMap m);
          counter := counter m + 1;
          constraints := constraints m |}, [])
  end.

(** Modelled from the spec: the list of a sender after a change to it (the
    source changes the list object the map points to). *)
Definition setList (m : t) (sender : string) (items : list WrappedTransaction) : t :=
  {| backingMap := <[sender := items]> (backingMap m);
     counter := counter m;
     constraints := constraints m |}.

(** Modelled from the spec: step 4b of Add. *)
Definition addTxReturnEvicted (m : t) (tx : WrappedTransaction) : t * bool * list string :=
  let sender := GetSndAddr tx in
  let '(m1, items) := getOrAddListForSender m sender in
  let '(items', added, evicted) := txListForSender.AddTx (constraints m) items tx in
  (setList m1 sender items', added, evicted).

(** Modelled from the spec: "Empty lists are removed eagerly". *)
Definition removeSenderIfEmpty (m : t) (sender : string) : t :=
  match backingMap m !! sender with
  | Some [] =>
      {| backingMap := delete sender (backingMap m);
         counter := counter m - 1;
         constraints := constraints m |}
  | _ => m
  end.

(** Modelled from the spec: step 1b of RemoveTxByHash, on the list of
    [tx]'s sender; a sender without a list has nothing to remove. *)
Definition removeTransactionsWithLowerOrEqualNonceReturnHashes
    (m : t) (tx : WrappedTransaction) : t * list string :=
  let sender := GetSndAddr tx in
  match getListForSender m sender with
  | None => (m, [])
  | Some items =>
      let '(kept, evicted) :=
        txListForSender.removeTransactionsWithLowerOrEqualNonceReturnHashes items (GetNonce tx) in
      (removeSenderIfEmpty (setList m sender kept) sender, evicted)
  end.

(** Modelled from the spec: the per-sender removal of an eviction pass. *)
Definition removeTransactionsWithHigherOrEqualNonce (m : t) (sender : string) (nonce : N) : t :=
  match getListForSender m sender with
  | None => m
  | Some items =>
      removeSenderIfEmpty
        (setList m sender (txListForSender.removeTransactionsWithHigherOrEqualNonce items nonce))
        sender
  end.

(** Modelled from the spec: "Snapshot the current set of per-sender lists";
    here in the order of the keys. *)
Definition getSenders (m : t) : list (list WrappedTransaction) :=
  snd <$> map_to_list (backingMap m).

End txListBySenderMap.

(** ** The cache *)

Record TxCache := {
  name : string;
  txListBySender : txListBySenderMap.t;
  txByHash : txByHashMap.t;
  config : ConfigSourceMe;
  host : MempoolHost;
  isEvictionInProgress : bool;
}.

(** [NewTxCache], after [config.verify()] and the nil check of the host. *)
Definition NewTxCache (config : ConfigSourceMe) (host : MempoolHost) : TxCache :=
  {| name := Name config;
     txListBySender := txListBySenderMap.empty (getSenderConstraints config);
     txByHash := txByHashMap.empty;
     config := config;
     host := host;
     isEvictionInProgress := false |}.

Definition setTxByHash (cache : TxCache) (m : txByHashMap.t) : TxCache :=
  {| name := name cache; txListBySender := txListBySender cache; txByHash := m;
     config := config cache; host := host cache;
     isEvictionInProgress := isEvictionInProgress cache |}.

Definition setTxListBySender (cache : TxCache) (m : txListBySenderMap.t) : TxCache :=
  {| name := name cache; txListBySender := m; txByHash := txByHash cache;
     config := config cache; host := host cache;
     isEvictionInProgress := isEvictionInProgress cache |}.

Definition setEvictionInProgress (cache : TxCache) (b : bool) : TxCache :=
  {| name := name cache; txListBySender := txListBySender cache; txByHash := txByHash cache;
     config := config cache; host := host cache;
     isEvictionInProgress := b |}.

(** [int(cache.txByHash.numBytes.GetUint64())]: the value is below [2^63], so
    the conversion to [int] keeps it. *)
Definition NumBytes (cache : TxCache) : Z :=
  GetUint64 (txByHashMap.numBytes (txByHash cache)).

Definition CountTx (cache : TxCache) : Z :=
  GetUint64 (txByHashMap.counter (txByHash cache)).

Definition CountSenders (cache : TxCache) : Z :=
  GetUint64 (txListBySenderMap.counter (txListBySender cache)).

Definition GetByTxHash (cache : TxCache) (txHash : string) : option WrappedTransaction :=
  txByHashMap.getTx (txByHash cache) txHash.

Definition Has (cache : TxCache) (key : string) : bool :=
  bool_decide (is_Some (GetByTxHash cache key)).

Definition GetTransactionsPoolForSender (cache : TxCache) (sender : string)
  : option (list WrappedTransaction) :=
  txListBySenderMap.getListForSender (txListBySender cache) sender.

(** ** Eviction ([eviction.go]) *)

Definition areThereTooManyBytes (cache : TxCache) : bool :=
  (NumBytesThreshold (config cache) <? NumBytes cache)%Z.

Definition areThereTooManySenders (cache : TxCache) : bool :=
  (CountThreshold (config cache) <? CountSenders cache)%Z.

Definition areThereTooManyTxs (cache : TxCache) : bool :=
  (CountThreshold (config cache) <? CountTx cache)%Z.

Definition isCapacityExceeded (cache : TxCache) : bool :=
  areThereTooManyBytes cache || areThereTooManySenders cache || areThereTooManyTxs cache.

Record evictionJournal := {
  numEvicted : nat;
  numEvictedByPass : list nat;
}.

(** Modelled from the spec: the heap item is the "cursor: a stateful iterator
    over a per-sender list carrying its current position".  [remaining] is
    the part of the bunch after the current transaction. *)
Record transactionsHeapItem := {
  currentTransaction : WrappedTransaction;
  remaining : list WrappedTransaction;
}.

(** Modelled from the spec: one cursor per bunch; an empty bunch has none
    (the error of [newTransactionsHeapItem]). *)
Definition newTransactionsHeapItem (bunch : list WrappedTransaction) : option transactionsHeapItem :=
  match bunch with
  | [] => None
  | tx :: rest => Some {| currentTransaction := tx; remaining := rest |}
  end.

(** Modelled from the spec: "advance the cursor to the next transaction in
    the same bunch"; [None] is the [false] of [gotoNextTransaction]. *)
Definition gotoNextTransaction (item : transactionsHeapItem) : option transactionsHeapItem :=
  newTransactionsHeapItem (remaining item).

(** Modelled from the spec: "The heap ordering places the worst transaction
    at the top ... lower price-per-gas-unit is worse, with tie-break on
    hash" (the selection order inverted: the greater hash is worse). *)
Definition isWorse (a b : WrappedTransaction) : bool :=
  (PricePerGasUnit a <? PricePerGasUnit b)%N
  || ((PricePerGasUnit a =? PricePerGasUnit b)%N && String.ltb (TxHash b) (TxHash a)).

(** Modelled from the spec: "a min-heap of cursors (one per bunch)", as the
    list of its items: [heapPush] adds one, [heapPop] takes out the worst
    (the first of them on a tie). *)
Definition heapPush (h : list transactionsHeapItem) (item : transactionsHeapItem)
  : list transactionsHeapItem := item :: h.

(** Modelled from the spec: "repeatedly popping the heap", the top being the
    worst transaction. *)
Fixpoint heapPop (h : list transactionsHeapItem)
  : option (transactionsHeapItem * list transactionsHeapItem) :=
  match h with
  | [] => None
  | x :: rest =>
      match heapPop rest with
      | None => Some (x, [])
      | Some (y, rest') =>
          if isWorse (currentTransaction y) (currentTransaction x)
          then Some (y, x :: rest')
          else Some (x, rest)
      end
  end.

(** The number of transactions the cursors of the heap still stand on or
    have ahead of them. *)
Definition heapTotal (h : list transactionsHeapItem) : nat :=
  foldr (λ item acc, S (length (remaining item)) + acc) 0 h.

(** The inner loop of a pass ("Select transactions (sorted)").  [k] is
    [NumItemsToPreemptivelyEvict - len(transactionsToEvict)], so the test
    [len(transactionsToEvict) >= NumItemsToPreemptivelyEvict] is [k = 0]; as
    in the source the item is popped before the test, and the [break] leaves
    it out of the heap. *)
Fixpoint collectTransactionsToEvict (k : nat) (h : list transactionsHeapItem)
    (transactionsToEvict : list WrappedTransaction)
  : list WrappedTransaction * list transactionsHeapItem :=
  match heapPop h with
  | None => (transactionsToEvict, h)
  | Some (item, h') =>
      match k with
      | 0 => (transactionsToEvict, h')
      | S k' =>
          let transactionsToEvict' := transactionsToEvict ++ [currentTransaction item] in
          match gotoNextTransaction item with
          | Some item' => collectTransactionsToEvict k' (heapPush h' item') transactionsToEvict'
          | None => collectTransactionsToEvict k' h' transactionsToEvict'
          end
      end
  end.

(** [lowestToEvictBySender[sender] = tx.Tx.GetNonce()], in the order of
    [transactionsToEvict]: a later transaction of a sender overwrites the
    entry of an earlier one. *)
Definition lowestToEvictBySender (transactionsToEvict : list WrappedTransaction) : gmap string N :=
  foldl (λ m tx, <[GetSndAddr tx := GetNonce tx]> m) ∅ transactionsToEvict.

(** "Remove those transactions from txListBySender": one removal per entry
    of the map. *)
Definition removeLowestToEvict (m : txListBySenderMap.t) (lowest : gmap string N)
  : txListBySenderMap.t :=
  foldl (λ acc entry, txListBySenderMap.removeTransactionsWithHigherOrEqualNonce acc entry.1 entry.2)
        m (map_to_list lowest).

(** What a pass does to the two maps once its transactions are collected. *)
Definition evictTransactions (cache : TxCache) (transactionsToEvict : list WrappedTransaction)
  : TxCache :=
  let transactionsToEvictHashes := TxHash <$> transactionsToEvict in
  let bySender := removeLowestToEvict (txListBySender cache)
                    (lowestToEvictBySender transactionsToEvict) in
  let byHash := (txByHashMap.RemoveTxsBulk (txByHash cache) transactionsToEvictHashes).1 in
  setTxByHash (setTxListBySender cache bySender) byHash.

Definition recordPass (journal : evictionJournal) (n : nat) : evictionJournal :=
  {| numEvicted := numEvicted journal + n;
     numEvictedByPass := numEvictedByPass journal ++ [n] |}.

(** The loop over the passes.  Every pass that goes on takes at least one
    transaction out of the heap for good, so [heapTotal] of the heap plus one
    bounds the number of iterations; [fuel] is that bound
    ([evictionPasses_fuel] below: more fuel gives the same result). *)
Fixpoint evictionPasses (fuel : nat) (cache : TxCache) (h : list transactionsHeapItem)
    (journal : evictionJournal) : TxCache * evictionJournal :=
  match fuel with
  | 0 => (cache, journal)
  | S fuel' =>
      if isCapacityExceeded cache then
        let '(transactionsToEvict, h') :=
          collectTransactionsToEvict
            (Z.to_nat (NumItemsToPreemptivelyEvict (config cache))) h [] in
        match transactionsToEvict with
        | [] => (cache, journal)
        | _ :: _ =>
            evictionPasses fuel' (evictTransactions cache transactionsToEvict) h'
              (recordPass journal (length transactionsToEvict))
        end
      else (cache, journal)
  end.

(** The heap as it is when the passes start: one item per non-empty bunch. *)
Definition initialHeap (bunches : list (list WrappedTransaction)) : list transactionsHeapItem :=
  foldl (λ h bunch, match newTransactionsHeapItem bunch with
                    | Some item => heapPush h item
                    | None => h
                    end) [] bunches.

Definition bunchesOf (cache : TxCache) : list (list WrappedTransaction) :=
  txListForSender.getTxsReversed <$> txListBySenderMap.getSenders (txListBySender cache).

Definition evictLeastLikelyToSelectTransactions (cache : TxCache) : TxCache * evictionJournal :=
  let h := initialHeap (bunchesOf cache) in
  evictionPasses (S (heapTotal h)) cache h {| numEvicted := 0; numEvictedByPass := [] |}.

(** [doEviction]; [None] is the nil journal.  The deferred [Reset] clears the
    flag on both returns that follow [SetReturningPrevious]. *)
Definition doEviction (cache : TxCache) : TxCache * option evictionJournal :=
  if isEvictionInProgress cache then (cache, None)
  else if negb (isCapacityExceeded cache) then (cache, None)
  else
    let cache1 := setEvictionInProgress cache true in
    if negb (isCapacityExceeded cache1) then (setEvictionInProgress cache1 false, None)
    else
      let '(cache2, journal) := evictLeastLikelyToSelectTransactions cache1 in
      (setEvictionInProgress cache2 false, Some journal).

(** ** Adding and removing ([txCache.go]) *)

(** "if cache.config.EvictionEnabled { _ = cache.doEviction() }" *)
Definition evictBeforeAdd (cache : TxCache) : TxCache :=
  if EvictionEnabled (config cache) then (doEviction cache).1 else cache.

(** [AddTx]; the argument is [None] for a nil pointer.  The result is the new
    state and the pair [(ok, added)].  [precomputeFields] writes into the
    caller's transaction, which is also the object the maps hold: the value
    stored is the precomputed one. *)
Definition AddTx (cache : TxCache) (tx : option WrappedTransaction) : TxCache * (bool * bool) :=
  match tx with
  | None => (cache, (false, false))
  | Some tx =>
      match Tx tx with
      | None => (cache, (false, false))
      | Some _ =>
          let tx := precomputeFields (host cache) tx in
          let cache1 := evictBeforeAdd cache in
          let '(byHash, addedInByHash) := txByHashMap.addTx (txByHash cache1) tx in
          let '(bySender, addedInBySender, evicted) :=
            txListBySenderMap.addTxReturnEvicted (txListBySender cache1) tx in
          let byHash' := match evicted with
                         | [] => byHash
                         | _ :: _ => (txByHashMap.RemoveTxsBulk byHash evicted).1
                         end in
          (setTxByHash (setTxListBySender cache1 bySender) byHash',
           (true, addedInByHash || addedInBySender))
      end
  end.

Definition RemoveTxByHash (cache : TxCache) (txHash : string) : TxCache * bool :=
  let '(byHash, found) := txByHashMap.removeTx (txByHash cache) txHash in
  match found with
  | None => (setTxByHash cache byHash, false)
  | Some tx =>
      let '(bySender, evicted) :=
        txListBySenderMap.removeTransactionsWithLowerOrEqualNonceReturnHashes
          (txListBySender cache) tx in
      let byHash' := match evicted with
                     | [] => byHash
                     | _ :: _ => (txByHashMap.RemoveTxsBulk byHash evicted).1
                     end in
      (setTxByHash (setTxListBySender cache bySender) byHash', true)
  end.

(** ** The selection session wrapper ([selectionSessionWrapper.go]) *)

(** [types.AccountState]. *)
Record AccountState := {
  AccountNonce : N;
  AccountBalance : Z;
}.

(** [SelectionSession]: [GetAccountState] answers a state or an error. *)
Record SelectionSession := {
  GetAccountState : string → AccountState + string;
  IsIncorrectlyGuarded : Transaction → bool;
}.

Record accountRecord := {
  initialNonce : N;
  initialBalance : Z;
  consumedBalance : Z;
}.

(** The wrapper.  [recordsByAddress] holds pointers in the source: a record
    is changed through the map.  [sessionCalls] is the list of the addresses
    [GetAccountState] was called with, oldest first (the mock of the tests
    counts them in [NumCallsGetAccountState]). *)
Record selectionSessionWrapper := {
  session : SelectionSession;
  recordsByAddress : gmap string accountRecord;
  sessionCalls : list string;
}.

Definition newSelectionSessionWrapper (session : SelectionSession) : selectionSessionWrapper :=
  {| session := session; recordsByAddress := ∅; sessionCalls := [] |}.

Definition getAccountRecord (w : selectionSessionWrapper) (address : string)
  : accountRecord * selectionSessionWrapper :=
  match recordsByAddress w !! address with
  | Some record => (record, w)
  | None =>
      let record :=
        match GetAccountState (session w) address with
        | inr _ => {| initialNonce := 0; initialBalance := 0; consumedBalance := 0 |}
        | inl state =>
            {| initialNonce := AccountNonce state;
               initialBalance := AccountBalance state;
               consumedBalance := 0 |}
        end in
      (record,
       {| session := session w;
          recordsByAddress := <[address := record]> (recordsByAddress w);
          sessionCalls := sessionCalls w ++ [address] |})
  end.

Definition getNonce (w : selectionSessionWrapper) (address : string) : N * selectionSessionWrapper :=
  let '(record, w') := getAccountRecord w address in (initialNonce record, w').

(** [record.consumedBalance.Add(record.consumedBalance, v)] on the record
    stored for [address]. *)
Definition addToConsumedBalance (w : selectionSessionWrapper) (address : string) (v : Z)
  : selectionSessionWrapper :=
  {| session := session w;
     recordsByAddress :=
       alter (λ r, {| initialNonce := initialNonce r;
                      initialBalance := initialBalance r;
                      consumedBalance := consumedBalance r + v |})
             address (recordsByAddress w);
     sessionCalls := sessionCalls w |}.

(** [senderRecord] and [feePayerRecord] are one object when the sender pays
    the fee: both additions go through the map. *)
Definition accumulateConsumedBalance (w : selectionSessionWrapper) (tx : WrappedTransaction)
  : selectionSessionWrapper :=
  let sender := GetSndAddr tx in
  let feePayer := FeePayer tx in
  let '(_, w1) := getAccountRecord w sender in
  let '(_, w2) := getAccountRecord w1 feePayer in
  let w3 := match TransferredValue tx with
            | Some transferredValue => addToConsumedBalance w2 sender transferredValue
            | None => w2
            end in
  match Fee tx with
  | Some fee => addToConsumedBalance w3 feePayer fee
  | None => w3
  end.

Definition detectWillFeeExceedBalance (w : selectionSessionWrapper) (tx : WrappedTransaction)
  : bool * selectionSessionWrapper :=
  match Fee tx with
  | None => (false, w)
  | Some fee =>
      let feePayer := FeePayer tx in
      let '(feePayerRecord, w') := getAccountRecord w feePayer in
      let futureConsumedBalance := (consumedBalance feePayerRecord + fee)%Z in
      let feePayerBalance := initialBalance feePayerRecord in
      ((feePayerBalance <? futureConsumedBalance)%Z, w')
  end.

(** The consumed balance on record for an address; zero before its record
    exists (a record starts with [consumedBalance] zero). *)
Definition consumedBalanceOf (w : selectionSessionWrapper) (address : string) : Z :=
  from_option consumedBalance 0%Z (recordsByAddress w !! address).

(** The operations of the wrapper, to speak of all that one selection can do
    with it. *)
Inductive wrapperCall :=
| CallGetAccountRecord (address : string)
| CallGetNonce (address : string)
| CallAccumulateConsumedBalance (tx : WrappedTransaction)
| CallDetectWillFeeExceedBalance (tx : WrappedTransaction).

Definition runWrapperCall (w : selectionSessionWrapper) (c : wrapperCall) : selectionSessionWrapper :=
  match c with
  | CallGetAccountRecord address => (getAccountRecord w address).2
  | CallGetNonce address => (getNonce w address).2
  | CallAccumulateConsumedBalance tx => accumulateConsumedBalance w tx
  | CallDetectWillFeeExceedBalance tx => (detectWillFeeExceedBalance w tx).2
  end.

Definition runWrapperCalls (w : selectionSessionWrapper) (cs : list wrapperCall)
  : selectionSessionWrapper :=
  foldl runWrapperCall w cs.

(** ** Properties of states used in the statements *)

(** The per-sender lists are keyed by the sender of their transactions and
    ascend by nonce (equal nonces may follow each other). *)
Definition ascendingNonces (items : list WrappedTransaction) : Prop :=
  StronglySorted (λ a b, (GetNonce a ≤ GetNonce b)%N) items.

Definition senderListOrdered (sender : string) (items : list WrappedTransaction) : Prop :=
  Forall (λ tx, GetSndAddr tx = sender) items ∧ ascendingNonces items.

Definition senderListsOrdered (cache : TxCache) : Prop :=
  map_Forall senderListOrdered (txListBySenderMap.backingMap (txListBySender cache)).

(** The states in which the passes of [evictionPasses] start: the cache and
    the heap each pass finds. *)
Fixpoint passStates (fuel : nat) (cache : TxCache) (h : list transactionsHeapItem)
  : list (TxCache * list transactionsHeapItem) :=
  match fuel with
  | 0 => []
  | S fuel' =>
      if isCapacityExceeded cache then
        let '(transactionsToEvict, h') :=
          collectTransactionsToEvict
            (Z.to_nat (NumItemsToPreemptivelyEvict (config cache))) h [] in
        match transactionsToEvict with
        | [] => []
        | _ :: _ =>
            (cache, h) :: passStates fuel' (evictTransactions cache transactionsToEvict) h'
        end
      else []
  end.

Definition passStatesOf (cache : TxCache) : list (TxCache * list transactionsHeapItem) :=
  let h := initialHeap (bunchesOf cache) in
  passStates (S (heapTotal h)) cache h.

(** The transactions a pass collects when it starts with heap [h]. *)
Definition collectedBy (cache : TxCache) (h : list transactionsHeapItem) : list WrappedTransaction :=
  (collectTransactionsToEvict (Z.to_nat (NumItemsToPreemptivelyEvict (config cache))) h []).1.

(** The senders that have a cursor in the heap. *)
Definition heapSenders (h : list transactionsHeapItem) : list string :=
  (λ item, GetSndAddr (currentTransaction item)) <$> h.

(** ** Hosts, sessions and transactions of the scenarios *)

(** A host in the manner of the tests' mock: the fee is price times limit,
    the sender pays, the score is the fee per unit of gas. *)
Definition testHost : MempoolHost :=
  {| ComputeTxFee := λ t, Some (Z.of_N (GasPrice t * GasLimit t));
     GetTransferredValue := Value;
     decideFeePayer := SndAddr;
     computePricePerGasUnit := λ t fee,
       match fee with
       | Some f => if (GasLimit t =? 0)%N then 0%N else (Z.to_N f / GasLimit t)%N
       | None => 0%N
       end |}.

Definition createTx (hash sender : string) (nonce gasPrice : N) (size : Z) : WrappedTransaction :=
  {| Tx := Some {| Nonce := nonce; SndAddr := sender; GasLimit := 50000;
                   GasPrice := gasPrice; Value := Some 0%Z |};
     TxHash := hash; Size := size; PricePerGasUnit := 0;
     TransferredValue := None; FeePayer := ""; Fee := None |}.

Definition maxUint32 : Z := 4294967295.

Definition testConfig (evictionEnabled : bool)
    (numBytesThreshold countThreshold countPerSenderThreshold numItemsToPreemptivelyEvict : Z)
  : ConfigSourceMe :=
  {| Name := "test"; NumChunks := 16;
     NumBytesThreshold := numBytesThreshold;
     NumBytesPerSenderThreshold := maxUint32;
     CountThreshold := countThreshold;
     CountPerSenderThreshold := countPerSenderThreshold;
     EvictionEnabled := evictionEnabled;
     NumItemsToPreemptivelyEvict := numItemsToPreemptivelyEvict |}.

Definition addMany (cache : TxCache) (txs : list WrappedTransaction) : TxCache :=
  foldl (λ c tx, (AddTx c (Some tx)).1) cache txs.

(** [nSenders] senders with [nTxs] transactions each, added sender after
    sender from the highest nonce down, with a price given by [price]. *)
Definition fakeHash (s n : nat) : string :=
  String (Ascii.ascii_of_nat (65 + s)) (String (Ascii.ascii_of_nat (65 + n)) "").

Definition fakeSender (s : nat) : string := String (Ascii.ascii_of_nat (97 + s)) "".

Definition uniformDistribution (nSenders nTxs : nat) (price : nat → nat → N)
  : list WrappedTransaction :=
  s ← seq 0 nSenders; n ← rev (seq 1 nTxs);
  [createTx (fakeHash s n) (fakeSender s) (N.of_nat n) (price s n) 128].

Definition mixedPrices (s n : nat) : N := N.of_nat (1000 + (7 * s + 13 * n) mod 17).
Definition samePrice (s n : nat) : N := 1000%N.

Definition cacheOfScenarioS3 (price : nat → nat → N) : TxCache :=
  addMany (NewTxCache (testConfig true maxUint32 100 maxUint32 1) testHost)
          (uniformDistribution 11 10 price).

(** Two transactions of alice with the same nonce, one of bob, and alice's
    nonce 2, under a count threshold of two with passes of one. *)
Definition scenarioSameNonce : TxCache :=
  addMany (NewTxCache (testConfig true maxUint32 2 maxUint32 1) testHost)
    [createTx "a1" "alice" 1 1 128; createTx "a1b" "alice" 1 2 128;
     createTx "b1" "bob" 1 9 128; createTx "a2" "alice" 2 9 128].

(** Four senders with one transaction each, the last of 1000 bytes, under a
    byte threshold of 1000 with passes of one. *)
Definition scenarioOversized : TxCache :=
  addMany (NewTxCache (testConfig true 1000 maxUint32 maxUint32 1) testHost)
    [createTx "A" "a" 1 1 100; createTx "B" "b" 1 2 100;
     createTx "C" "c" 1 3 100; createTx "D" "d" 1 4 1000].

(** Alice holds three transactions and may hold no more. *)
Definition scenarioFullSender : TxCache :=
  addMany (NewTxCache (testConfig false maxUint32 maxUint32 3 1) testHost)
    [createTx "tx-alice-1" "alice" 1 1 128; createTx "tx-alice-2" "alice" 2 1 128;
     createTx "tx-alice-3" "alice" 3 1 128].

Definition txAlice4 : WrappedTransaction := createTx "tx-alice-4" "alice" 4 1 128.

(** A session that knows alice, with balance 100, and fails on every other
    address. *)
Definition aliceSession : SelectionSession :=
  {| GetAccountState := λ address,
       if String.eqb address "alice"
       then inl {| AccountNonce := 0; AccountBalance := 100 |}
       else inr "account not found";
     IsIncorrectlyGuarded := λ _, false |}.

Definition txWithFee (hash sender feePayer : string) (nonce : N)
    (transferredValue fee : option Z) : WrappedTransaction :=
  {| Tx := Some {| Nonce := nonce; SndAddr := sender; GasLimit := 50000;
                   GasPrice := 1; Value := transferredValue |};
     TxHash := hash; Size := 128; PricePerGasUnit := 1;
     TransferredValue := transferredValue; FeePayer := feePayer; Fee := fee |}.

(** Alice holds the nonces 1, 2 and 3. *)
Definition scenarioS7 : TxCache :=
  addMany (NewTxCache (testConfig false maxUint32 maxUint32 maxUint32 1) testHost)
    [createTx "hash-1" "alice" 1 1 128; createTx "hash-2" "alice" 2 1 128;
     createTx "hash-3" "alice" 3 1 128].

(** The two maps agree on a sender: every transaction of that sender in the
    map by hash is stored under its hash and is in the list of the sender. *)
Definition mapsAgreeOn (cache : TxCache) (sender : string) : Prop :=
  map_Forall
    (λ h x, GetSndAddr x = sender →
            h = TxHash x ∧ x ∈ default [] (GetTransactionsPoolForSender cache sender))
    (txByHashMap.backingMap (txByHash cache)).

(** The transactions a cursor stands on and has ahead, and its sender. *)
Definition itemTransactions (item : transactionsHeapItem) : list WrappedTransaction :=
  currentTransaction item :: remaining item.

Definition itemSender (item : transactionsHeapItem) : string :=
  GetSndAddr (currentTransaction item).

(** A cursor runs over the transactions of one sender, from the highest
    nonce down. *)
Definition itemOrdered (item : transactionsHeapItem) : Prop :=
  Forall (λ tx, GetSndAddr tx = itemSender item) (itemTransactions item)
  ∧ StronglySorted (λ a b, (GetNonce b ≤ GetNonce a)%N) (itemTransactions item).

(** Every cursor of the heap is ordered and no sender has two cursors. *)
Definition heapOrdered (h : list transactionsHeapItem) : Prop :=
  Forall itemOrdered h ∧ NoDup (heapSenders h).

(** In a list of collected transactions, a later transaction of a sender is
    not of higher nonce than an earlier one of the same sender. *)
Definition laterNotHigher (a b : WrappedTransaction) : Prop :=
  GetSndAddr a = GetSndAddr b → (GetNonce b ≤ GetNonce a)%N.

(** What is collected of a sender is not below what its cursor still has. *)
Definition collectedAhead (collected : list WrappedTransaction)
    (h : list transactionsHeapItem) : Prop :=
  ∀ item tx y,
    item ∈ h → tx ∈ collected → GetSndAddr tx = itemSender item →
    y ∈ itemTransactions item → (GetNonce y ≤ GetNonce tx)%N.

(** A cache with five transactions under a count threshold of four and
    passes of three: alice's three are the worst. *)
Definition scenarioWorstSender : TxCache :=
  addMany (NewTxCache (testConfig true maxUint32 4 maxUint32 3) testHost)
    [createTx "a1" "alice" 1 1 128; createTx "a2" "alice" 2 1 128;
     createTx "a3" "alice" 3 1 128; createTx "b1" "bob" 1 5 128;
     createTx "b2" "bob" 2 5 128].

(** The calls that change a cache, to speak of every state a cache can be
    in. *)
Inductive cacheCall :=
| CallAddTx (tx : option WrappedTransaction)
| CallRemoveTxByHash (txHash : string).

Definition runCacheCall (cache : TxCache) (c : cacheCall) : TxCache :=
  match c with
  | CallAddTx tx => (AddTx cache tx).1
  | CallRemoveTxByHash txHash => (RemoveTxByHash cache txHash).1
  end.

Definition runCacheCalls (cache : TxCache) (cs : list cacheCall) : TxCache :=
  foldl runCacheCall cache cs.

#[global] Instance senderListOrdered_dec sender items : Decision (senderListOrdered sender items).
Proof. unfold senderListOrdered, ascendingNonces. apply _. Defined.

#[global] Instance senderListsOrdered_dec cache : Decision (senderListsOrdered cache).
Proof. unfold senderListsOrdered. apply _. Defined.

(** What the 110 additions of the scenario leave: [n] transactions by the
    counter, in the map by hash and in the per-sender lists together. *)
Definition scenarioS3Leaves (price : nat → nat → N) (n : nat) : Prop :=
  length (uniformDistribution 11 10 price) = 110
  ∧ CountTx (cacheOfScenarioS3 price) = Z.of_nat n
  ∧ size (txByHashMap.backingMap (txByHash (cacheOfScenarioS3 price))) = n
  ∧ sum_list (length <$> txListBySenderMap.getSenders
                           (txListBySender (cacheOfScenarioS3 price))) = n.

(** The invariant of the wrapper: the session was asked exactly for the
    addresses that have a record, and for none of them twice. *)
Definition wrapperConsistent (w : selectionSessionWrapper) : Prop :=
  NoDup (sessionCalls w)
  ∧ ∀ a, a ∈ sessionCalls w ↔ is_Some (recordsByAddress w !! a).

(** The heap as the loop over the passes leaves it: the same loop as
    [evictionPasses], answering the heap instead of cache and journal. *)
Fixpoint evictionPassesHeap (fuel : nat) (cache : TxCache) (h : list transactionsHeapItem)
  : list transactionsHeapItem :=
  match fuel with
  | 0 => h
  | S fuel' =>
      if isCapacityExceeded cache then
        let '(transactionsToEvict, h') :=
          collectTransactionsToEvict
            (Z.to_nat (NumItemsToPreemptivelyEvict (config cache))) h [] in
        match transactionsToEvict with
        | [] => h'
        | _ :: _ => evictionPassesHeap fuel' (evictTransactions cache transactionsToEvict) h'
        end
      else h
  end.

(** ** Counters and maps *)

(** The sum of the sizes of the transactions of a map by hash. *)
Definition sizeOfAll (m : gmap string WrappedTransaction) : Z :=
  map_fold (λ _ tx acc, Size tx + acc)%Z 0%Z m.

(** The counters of the map by hash say what the map holds. *)
Definition byHashCounted (m : txByHashMap.t) : Prop :=
  txByHashMap.counter m = Z.of_nat (size (txByHashMap.backingMap m))
  ∧ txByHashMap.numBytes m = sizeOfAll (txByHashMap.backingMap m).

(** The counter of the map by sender is the number of its lists, and its
    constraints are [c]. *)
Definition bySenderCounted (c : senderConstraints) (m : txListBySenderMap.t) : Prop :=
  txListBySenderMap.counter m = Z.of_nat (size (txListBySenderMap.backingMap m))
  ∧ txListBySenderMap.constraints m = c.

Definition countersAgree (cache : TxCache) : Prop :=
  byHashCounted (txByHash cache)
  ∧ bySenderCounted (getSenderConstraints (config cache)) (txListBySender cache).

(** ** What a run of the wrapper charges *)

(** What one call charges to the consumed balance of [address]: only
    [accumulateConsumedBalance] charges, the transferred value to the sender
    and the fee to the fee payer. *)
Definition chargedBy (address : string) (c : wrapperCall) : Z :=
  match c with
  | CallAccumulateConsumedBalance tx =>
      (if decide (address = GetSndAddr tx) then default 0 (TransferredValue tx) else 0)
      + (if decide (address = FeePayer tx) then default 0 (Fee tx) else 0)
  | _ => 0
  end%Z.

Definition chargedByAll (address : string) (cs : list wrapperCall) : Z :=
  foldr (λ c acc, chargedBy address c + acc)%Z 0%Z cs.

(** * Properties *)

(** ** The map by hash *)

Lemma removeTx_lookup m h h' :
  txByHashMap.backingMap (txByHashMap.removeTx m h).1 !! h' =
  if decide (h' = h) then None else txByHashMap.backingMap m !! h'.
Proof.
  unfold txByHashMap.removeTx.
  destruct (txByHashMap.backingMap m !! h) as [tx|] eqn:E; simpl.
  - rewrite lookup_delete. repeat case_decide; congruence.
  - case_decide; congruence.
Qed.

Lemma removeTx_absent m h :
  txByHashMap.backingMap m !! h = None → txByHashMap.removeTx m h = (m, None).
Proof. intros E. unfold txByHashMap.removeTx. by rewrite E. Qed.

Lemma removeTx_found m h :
  (txByHashMap.removeTx m h).2 = txByHashMap.backingMap m !! h.
Proof.
  unfold txByHashMap.removeTx.
  by destruct (txByHashMap.backingMap m !! h).
Qed.

Lemma RemoveTxsBulk_lookup hs : ∀ m h',
  txByHashMap.backingMap (txByHashMap.RemoveTxsBulk m hs).1 !! h' =
  if decide (h' ∈ hs) then None else txByHashMap.backingMap m !! h'.
Proof.
  induction hs as [|h hs IH]; intros m h'; simpl.
  - destruct (decide (h' ∈ [])) as [H|H]; [by apply elem_of_nil in H | done].
  - pose proof (removeTx_lookup m h h') as Hr.
    destruct (txByHashMap.removeTx m h) as [m1 removed]; simpl in Hr.
    specialize (IH m1 h').
    destruct (txByHashMap.RemoveTxsBulk m1 hs) as [m2 n]; simpl in *.
    rewrite IH, Hr.
    destruct (decide (h' = h)) as [->|Hne].
    + rewrite (decide_True (P := h ∈ h :: hs)) by apply list_elem_of_here.
      by destruct (decide (h ∈ hs)).
    + destruct (decide (h' ∈ hs)) as [Hin|Hnin].
      * by rewrite decide_True by (by apply list_elem_of_further).
      * rewrite decide_False; [done|]. by intros [?|?]%elem_of_cons.
Qed.

Lemma RemoveTxsBulk_nil_or m evicted h' :
  txByHashMap.backingMap
    (match evicted with
     | [] => m
     | _ :: _ => (txByHashMap.RemoveTxsBulk m evicted).1
     end) !! h' =
  if decide (h' ∈ evicted) then None else txByHashMap.backingMap m !! h'.
Proof.
  destruct evicted as [|e evicted].
  - destruct (decide (h' ∈ [])) as [H|H]; [by apply elem_of_nil in H | done].
  - apply RemoveTxsBulk_lookup.
Qed.

Lemma addTx_lookup m tx h' :
  txByHashMap.backingMap (txByHashMap.addTx m tx).1 !! h' =
  match txByHashMap.backingMap m !! h' with
  | Some x => Some x
  | None => if decide (h' = TxHash tx) then Some tx else None
  end.
Proof.
  unfold txByHashMap.addTx.
  destruct (txByHashMap.backingMap m !! TxHash tx) as [x|] eqn:E; simpl.
  - destruct (txByHashMap.backingMap m !! h') eqn:E'; [done|].
    case_decide; congruence.
  - rewrite lookup_insert. case_decide; subst.
    + rewrite E. by rewrite decide_True.
    + destruct (txByHashMap.backingMap m !! h'); [done|]. by rewrite decide_False.
Qed.

Lemma addTx_added m tx :
  (txByHashMap.addTx m tx).2 = bool_decide (txByHashMap.backingMap m !! TxHash tx = None).
Proof.
  unfold txByHashMap.addTx.
  by destruct (txByHashMap.backingMap m !! TxHash tx).
Qed.

Lemma addTx_present m tx :
  is_Some (txByHashMap.backingMap m !! TxHash tx) → txByHashMap.addTx m tx = (m, false).
Proof. intros [x E]. unfold txByHashMap.addTx. by rewrite E. Qed.

(** ** The precompute *)

Lemma precomputeFields_idempotent host tx :
  precomputeFields host (precomputeFields host tx) = precomputeFields host tx.
Proof.
  unfold precomputeFields.
  destruct (Tx tx) as [t|] eqn:E; simpl; [done | by rewrite E].
Qed.

Lemma precomputeFields_Tx host tx : Tx (precomputeFields host tx) = Tx tx.
Proof. unfold precomputeFields. by destruct (Tx tx) eqn:E. Qed.

Lemma precomputeFields_TxHash host tx : TxHash (precomputeFields host tx) = TxHash tx.
Proof. unfold precomputeFields. by destruct (Tx tx). Qed.

Lemma precomputeFields_GetNonce host tx : GetNonce (precomputeFields host tx) = GetNonce tx.
Proof. unfold GetNonce. by rewrite precomputeFields_Tx. Qed.

Lemma precomputeFields_GetSndAddr host tx : GetSndAddr (precomputeFields host tx) = GetSndAddr tx.
Proof. unfold GetSndAddr. by rewrite precomputeFields_Tx. Qed.

(** ** The selection session wrapper *)

Lemma getAccountRecord_known w address record :
  recordsByAddress w !! address = Some record → getAccountRecord w address = (record, w).
Proof. intros E. unfold getAccountRecord. by rewrite E. Qed.

Lemma getAccountRecord_session w address :
  session (getAccountRecord w address).2 = session w.
Proof.
  unfold getAccountRecord. by destruct (recordsByAddress w !! address).
Qed.

Lemma getAccountRecord_stored w address :
  recordsByAddress (getAccountRecord w address).2 !! address
  = Some (getAccountRecord w address).1.
Proof.
  unfold getAccountRecord.
  destruct (recordsByAddress w !! address) eqn:E; simpl; [done|].
  by rewrite lookup_insert_eq.
Qed.

Lemma getAccountRecord_consumed w address a :
  consumedBalanceOf (getAccountRecord w address).2 a = consumedBalanceOf w a.
Proof.
  unfold getAccountRecord, consumedBalanceOf.
  destruct (recordsByAddress w !! address) eqn:E; simpl; [done|].
  destruct (decide (address = a)) as [->|Hne].
  - rewrite lookup_insert_eq, E. by destruct (GetAccountState (session w) a).
  - by rewrite lookup_insert_ne.
Qed.

Lemma getAccountRecord_keeps w address a :
  is_Some (recordsByAddress w !! a) →
  is_Some (recordsByAddress (getAccountRecord w address).2 !! a).
Proof.
  intros Ha. unfold getAccountRecord.
  destruct (recordsByAddress w !! address) eqn:E; simpl; [done|].
  destruct (decide (address = a)) as [->|Hne].
  - rewrite lookup_insert_eq. eauto.
  - by rewrite lookup_insert_ne.
Qed.

Lemma addToConsumedBalance_consumed w address v a :
  is_Some (recordsByAddress w !! address) →
  consumedBalanceOf (addToConsumedBalance w address v) a
  = (consumedBalanceOf w a + if decide (a = address) then v else 0)%Z.
Proof.
  intros [r Hr]. unfold addToConsumedBalance, consumedBalanceOf. simpl.
  destruct (decide (a = address)) as [->|Hne].
  - rewrite lookup_alter_eq, Hr. done.
  - rewrite lookup_alter_ne by done. lia.
Qed.

Lemma addToConsumedBalance_keeps w address v a :
  is_Some (recordsByAddress w !! a) →
  is_Some (recordsByAddress (addToConsumedBalance w address v) !! a).
Proof.
  intros [r Hr]. unfold addToConsumedBalance. simpl.
  destruct (decide (a = address)) as [->|Hne].
  - rewrite lookup_alter_eq, Hr. simpl. eauto.
  - rewrite lookup_alter_ne by done. eauto.
Qed.

(** What [accumulateConsumedBalance] adds to the consumed balance of any
    address: the transferred value if it is the sender, the fee if it is the
    fee payer, both if it is both. *)
Lemma accumulateConsumedBalance_consumed w tx a :
  consumedBalanceOf (accumulateConsumedBalance w tx) a
  = (consumedBalanceOf w a
     + (if decide (a = GetSndAddr tx) then default 0 (TransferredValue tx) else 0)
     + (if decide (a = FeePayer tx) then default 0 (Fee tx) else 0))%Z.
Proof.
  unfold accumulateConsumedBalance.
  pose proof (getAccountRecord_consumed w (GetSndAddr tx)) as C1.
  pose proof (getAccountRecord_stored w (GetSndAddr tx)) as S1.
  destruct (getAccountRecord w (GetSndAddr tx)) as [r1 w1]; simpl in *.
  pose proof (getAccountRecord_consumed w1 (FeePayer tx)) as C2.
  pose proof (getAccountRecord_stored w1 (FeePayer tx)) as S2.
  pose proof (getAccountRecord_keeps w1 (FeePayer tx) (GetSndAddr tx)) as K2.
  destruct (getAccountRecord w1 (FeePayer tx)) as [r2 w2]; simpl in *.
  assert (is_Some (recordsByAddress w2 !! GetSndAddr tx)) as P1 by eauto.
  assert (is_Some (recordsByAddress w2 !! FeePayer tx)) as P2 by eauto.
  destruct (TransferredValue tx) as [tv|], (Fee tx) as [fee|]; simpl.
  - rewrite addToConsumedBalance_consumed by (by apply addToConsumedBalance_keeps).
    rewrite addToConsumedBalance_consumed by done.
    rewrite C2, C1. done.
  - rewrite addToConsumedBalance_consumed by done.
    rewrite C2, C1. destruct (decide (a = FeePayer tx)); lia.
  - rewrite addToConsumedBalance_consumed by done.
    rewrite C2, C1. destruct (decide (a = GetSndAddr tx)); lia.
  - rewrite C2, C1.
    destruct (decide (a = GetSndAddr tx)), (decide (a = FeePayer tx)); lia.
Qed.

Lemma accumulateConsumedBalance_calls_records w tx :
  let w' := accumulateConsumedBalance w tx in
  ∃ w1 w2,
    w1 = (getAccountRecord w (GetSndAddr tx)).2 ∧
    w2 = (getAccountRecord w1 (FeePayer tx)).2 ∧
    sessionCalls w' = sessionCalls w2 ∧
    session w' = session w2 ∧
    ∀ a, is_Some (recordsByAddress w' !! a) ↔ is_Some (recordsByAddress w2 !! a).
Proof.
  unfold accumulateConsumedBalance.
  destruct (getAccountRecord w (GetSndAddr tx)) as [r1 w1] eqn:E1.
  destruct (getAccountRecord w1 (FeePayer tx)) as [r2 w2] eqn:E2.
  exists w1, w2. simpl. rewrite E2. simpl.
  split; [done|]. split; [done|].
  assert (∀ w address v a,
    is_Some (recordsByAddress (addToConsumedBalance w address v) !! a)
    ↔ is_Some (recordsByAddress w !! a)) as Halter.
  { intros w0 address v a. unfold addToConsumedBalance. simpl.
    destruct (decide (a = address)) as [->|Hne].
    - rewrite lookup_alter_eq. by rewrite fmap_is_Some.
    - by rewrite lookup_alter_ne. }
  destruct (TransferredValue tx), (Fee tx); cbv beta iota zeta;
    (split; [done|]); (split; [done|]); intros a; rewrite ?Halter; reflexivity.
Qed.

Lemma wrapperConsistent_new session :
  wrapperConsistent (newSelectionSessionWrapper session).
Proof.
  split; simpl; [constructor|].
  intros a. rewrite lookup_empty. split.
  - by intros ?%elem_of_nil.
  - by intros [? ?].
Qed.

Lemma wrapperConsistent_getAccountRecord w address :
  wrapperConsistent w → wrapperConsistent (getAccountRecord w address).2.
Proof.
  intros [Hnd Hdom]. unfold getAccountRecord.
  destruct (recordsByAddress w !! address) eqn:E; simpl; [by split|].
  split; simpl.
  - apply NoDup_app. split; [done|]. split; [|apply NoDup_singleton].
    intros x Hx ->%list_elem_of_singleton.
    apply Hdom in Hx. rewrite E in Hx. by destruct Hx.
  - intros a. rewrite elem_of_app, list_elem_of_singleton, Hdom.
    destruct (decide (address = a)) as [->|Hne].
    + rewrite lookup_insert_eq. split; eauto.
    + rewrite lookup_insert_ne by done. split; [intros [?|?]; [done|congruence] | eauto].
Qed.

Lemma wrapperConsistent_call w c :
  wrapperConsistent w → wrapperConsistent (runWrapperCall w c).
Proof.
  intros Hw. destruct c as [a|a|tx|tx]; simpl.
  - by apply wrapperConsistent_getAccountRecord.
  - unfold getNonce.
    pose proof (wrapperConsistent_getAccountRecord w a Hw) as H.
    by destruct (getAccountRecord w a).
  - destruct (accumulateConsumedBalance_calls_records w tx) as (w1 & w2 & -> & -> & Hc & _ & Hr).
    pose proof (wrapperConsistent_getAccountRecord _ (FeePayer tx)
                  (wrapperConsistent_getAccountRecord w (GetSndAddr tx) Hw)) as [Hnd Hdom].
    split.
    + by rewrite Hc.
    + intros a. rewrite Hc, Hr. apply Hdom.
  - unfold detectWillFeeExceedBalance.
    destruct (Fee tx); simpl; [|done].
    pose proof (wrapperConsistent_getAccountRecord w (FeePayer tx) Hw) as H.
    by destruct (getAccountRecord w (FeePayer tx)).
Qed.

Lemma wrapperConsistent_calls cs : ∀ w,
  wrapperConsistent w → wrapperConsistent (runWrapperCalls w cs).
Proof.
  induction cs as [|c cs IH]; intros w Hw; simpl; [done|].
  apply IH. by apply wrapperConsistent_call.
Qed.

Lemma runWrapperCall_session w c : session (runWrapperCall w c) = session w.
Proof.
  destruct c as [a|a|tx|tx]; simpl.
  - apply getAccountRecord_session.
  - unfold getNonce. pose proof (getAccountRecord_session w a) as H.
    by destruct (getAccountRecord w a).
  - destruct (accumulateConsumedBalance_calls_records w tx) as (w1 & w2 & -> & -> & _ & Hs & _).
    rewrite Hs. by rewrite !getAccountRecord_session.
  - unfold detectWillFeeExceedBalance. destruct (Fee tx); simpl; [|done].
    pose proof (getAccountRecord_session w (FeePayer tx)) as H.
    by destruct (getAccountRecord w (FeePayer tx)).
Qed.

Lemma runWrapperCalls_session cs : ∀ w, session (runWrapperCalls w cs) = session w.
Proof.
  induction cs as [|c cs IH]; intros w; simpl; [done|].
  by rewrite IH, runWrapperCall_session.
Qed.

(** C8.  During one selection (any sequence of calls on a wrapper that
    started fresh) the session is consulted at most once per address: no
    address occurs twice among the calls made to it.  In the state reached, a
    call of [getAccountRecord] for an address that has a record returns that
    record and leaves the wrapper, the list of session calls included, as it
    is; a call for an address without a record consults the session once,
    stores the record it returns, and that record is {0, 0, 0} when the
    session answers with an error. *)
Theorem session_consulted_once_per_address session calls :
  let w := runWrapperCalls (newSelectionSessionWrapper session) calls in
  NoDup (sessionCalls w)
  ∧ (∀ address record,
       recordsByAddress w !! address = Some record →
       getAccountRecord w address = (record, w))
  ∧ (∀ address,
       recordsByAddress w !! address = None →
       let record := (getAccountRecord w address).1 in
       let w' := (getAccountRecord w address).2 in
       sessionCalls w' = sessionCalls w ++ [address]
       ∧ recordsByAddress w' = <[address := record]> (recordsByAddress w)
       ∧ getAccountRecord w' address = (record, w')
       ∧ record =
           match GetAccountState session address with
           | inl state =>
               {| initialNonce := AccountNonce state;
                  initialBalance := AccountBalance state;
                  consumedBalance := 0 |}
           | inr _ => {| initialNonce := 0; initialBalance := 0; consumedBalance := 0 |}
           end).
Proof.
  intros w.
  pose proof (wrapperConsistent_calls calls _ (wrapperConsistent_new session)) as [Hnd _].
  pose proof (runWrapperCalls_session calls (newSelectionSessionWrapper session)) as Hs.
  fold w in Hnd, Hs. simpl in Hs.
  split; [done|]. split.
  - intros address record. apply getAccountRecord_known.
  - intros address E record w'.
    pose proof (getAccountRecord_stored w address) as Hst. fold record w' in Hst.
    subst record w'. unfold getAccountRecord in *. rewrite E in *. simpl in *.
    rewrite Hst, Hs. done.
Qed.

Lemma session_consulted_once_per_address_witness :
  let w := runWrapperCalls (newSelectionSessionWrapper aliceSession)
             [CallGetNonce "alice";
              CallDetectWillFeeExceedBalance
                (txWithFee "h1" "alice" "alice" 0 (Some 0%Z) (Some 60%Z));
              CallGetAccountRecord "alice"] in
  sessionCalls w = ["alice"]
  ∧ getAccountRecord w "alice"
    = ({| initialNonce := 0; initialBalance := 100; consumedBalance := 0 |}, w)
  ∧ (getAccountRecord w "bob").1
    = {| initialNonce := 0; initialBalance := 0; consumedBalance := 0 |}.
Proof.
  intros w.
  destruct (session_consulted_once_per_address aliceSession
              [CallGetNonce "alice";
               CallDetectWillFeeExceedBalance
                 (txWithFee "h1" "alice" "alice" 0 (Some 0%Z) (Some 60%Z));
               CallGetAccountRecord "alice"]) as (_ & Hknown & Hnew).
  split; [reflexivity|]. split.
  - apply Hknown. reflexivity.
  - destruct (Hnew "bob") as (_ & _ & _ & Hr); [reflexivity|]. exact Hr.
Defined.

(** C9.  The balance gate answers [true] exactly when the consumed balance
    on record for the fee payer plus the fee of the transaction is greater
    than the initial balance on record, in integer arithmetic without bound
    (and answers [false] for a transaction without fee).  With a fee payer of
    balance 100 and two transactions of fee 60 each: the first passes the
    gate, accumulating it brings the consumed balance to 60, and the second
    is rejected. *)
Theorem balance_gate_exact :
  (∀ w tx,
     let feePayerRecord := (getAccountRecord w (FeePayer tx)).1 in
     (detectWillFeeExceedBalance w tx).1 =
     match Fee tx with
     | Some fee =>
         bool_decide (consumedBalance feePayerRecord + fee > initialBalance feePayerRecord)%Z
     | None => false
     end)
  ∧ (let tx1 := txWithFee "h1" "alice" "alice" 0 (Some 0%Z) (Some 60%Z) in
     let tx2 := txWithFee "h2" "alice" "alice" 1 (Some 0%Z) (Some 60%Z) in
     let w0 := newSelectionSessionWrapper aliceSession in
     let '(willExceed1, w1) := detectWillFeeExceedBalance w0 tx1 in
     let w2 := accumulateConsumedBalance w1 tx1 in
     let '(willExceed2, w3) := detectWillFeeExceedBalance w2 tx2 in
     willExceed1 = false
     ∧ recordsByAddress w2 !! "alice"
       = Some {| initialNonce := 0; initialBalance := 100; consumedBalance := 60 |}
     ∧ willExceed2 = true).
Proof.
  split.
  - intros w tx feePayerRecord. subst feePayerRecord.
    unfold detectWillFeeExceedBalance.
    destruct (Fee tx) as [fee|]; [|done].
    destruct (getAccountRecord w (FeePayer tx)) as [r w']; simpl.
    destruct (Z.ltb_spec (initialBalance r) (consumedBalance r + fee)).
    + symmetry. apply bool_decide_eq_true. lia.
    + symmetry. apply bool_decide_eq_false. lia.
  - vm_compute. done.
Qed.

(** C10, as the code has it.  For a transaction whose Fee is nil the balance
    gate answers [false] and leaves the wrapper untouched, and
    [accumulateConsumedBalance] adds no fee: the consumed balance of the fee
    payer stays as it is, except that it grows by the transferred value when
    the fee payer is the sender itself.  Likewise for a nil TransferredValue:
    the consumed balance of the sender stays as it is, except that it grows
    by the fee when the sender pays the fee itself. *)
Theorem nil_fee_and_nil_value_add_nothing w tx :
  (Fee tx = None →
     detectWillFeeExceedBalance w tx = (false, w)
     ∧ consumedBalanceOf (accumulateConsumedBalance w tx) (FeePayer tx)
       = (consumedBalanceOf w (FeePayer tx)
          + if decide (FeePayer tx = GetSndAddr tx)
            then default 0 (TransferredValue tx) else 0)%Z)
  ∧ (TransferredValue tx = None →
     consumedBalanceOf (accumulateConsumedBalance w tx) (GetSndAddr tx)
     = (consumedBalanceOf w (GetSndAddr tx)
        + if decide (GetSndAddr tx = FeePayer tx)
          then default 0 (Fee tx) else 0)%Z).
Proof.
  split.
  - intros Hf. split.
    + unfold detectWillFeeExceedBalance. by rewrite Hf.
    + rewrite accumulateConsumedBalance_consumed, Hf. simpl.
      destruct (decide (FeePayer tx = FeePayer tx)); [|done].
      destruct (decide (FeePayer tx = GetSndAddr tx)); lia.
  - intros Ht. rewrite accumulateConsumedBalance_consumed, Ht. simpl.
    destruct (decide (GetSndAddr tx = GetSndAddr tx)); [|done].
    destruct (decide (GetSndAddr tx = FeePayer tx)); lia.
Qed.

Lemma nil_fee_and_nil_value_add_nothing_witness :
  let w := newSelectionSessionWrapper aliceSession in
  let relayed := txWithFee "h1" "alice" "bob" 0 (Some 5%Z) None in
  let own := txWithFee "h2" "alice" "alice" 0 None (Some 60%Z) in
  (detectWillFeeExceedBalance w relayed = (false, w)
   ∧ consumedBalanceOf (accumulateConsumedBalance w relayed) "bob" = 0%Z)
  ∧ consumedBalanceOf (accumulateConsumedBalance w own) "alice" = 60%Z.
Proof.
  intros w relayed own. split.
  - exact (proj1 (nil_fee_and_nil_value_add_nothing w relayed) eq_refl).
  - exact (proj2 (nil_fee_and_nil_value_add_nothing w own) eq_refl).
Defined.

(** C10 as stated fails: a transaction without fee whose sender is its own
    fee payer and which transfers 5 moves the consumed balance of the fee
    payer from 0 to 5; and one without transferred value whose sender pays
    the fee of 60 moves the consumed balance of the sender from 0 to 60. *)
Lemma nil_fee_does_not_freeze_fee_payer :
  let w := newSelectionSessionWrapper aliceSession in
  let tx := txWithFee "h1" "alice" "alice" 0 (Some 5%Z) None in
  let tx' := txWithFee "h2" "alice" "alice" 0 None (Some 60%Z) in
  (Fee tx = None
   ∧ consumedBalanceOf w (FeePayer tx) = 0%Z
   ∧ consumedBalanceOf (accumulateConsumedBalance w tx) (FeePayer tx) = 5%Z)
  ∧ (TransferredValue tx' = None
     ∧ consumedBalanceOf w (GetSndAddr tx') = 0%Z
     ∧ consumedBalanceOf (accumulateConsumedBalance w tx') (GetSndAddr tx') = 60%Z).
Proof. vm_compute. done. Qed.

(** ** The capacity check and [doEviction] *)

Lemma isCapacityExceeded_flag cache b :
  isCapacityExceeded (setEvictionInProgress cache b) = isCapacityExceeded cache.
Proof. done. Qed.

Lemma isCapacityExceeded_decide cache :
  isCapacityExceeded cache =
  bool_decide (NumBytes cache > NumBytesThreshold (config cache)
               ∨ CountSenders cache > CountThreshold (config cache)
               ∨ CountTx cache > CountThreshold (config cache))%Z.
Proof.
  unfold isCapacityExceeded, areThereTooManyBytes, areThereTooManySenders, areThereTooManyTxs.
  destruct (Z.ltb_spec (NumBytesThreshold (config cache)) (NumBytes cache));
    destruct (Z.ltb_spec (CountThreshold (config cache)) (CountSenders cache));
    destruct (Z.ltb_spec (CountThreshold (config cache)) (CountTx cache)); simpl;
    symmetry; (apply bool_decide_eq_true; lia) || (apply bool_decide_eq_false; lia).
Qed.

Lemma doEviction_not_exceeded cache :
  isCapacityExceeded cache = false → doEviction cache = (cache, None).
Proof.
  intros H. unfold doEviction. rewrite H. simpl.
  by destruct (isEvictionInProgress cache).
Qed.

(** C2.  The capacity check answers "exceeded" exactly when one of the three
    counters is strictly above its threshold; when none is, [doEviction]
    returns no journal and the cache as it was.  With CountThreshold 100 and
    NumItemsToPreemptivelyEvict 1, the 110 additions of 11 senders with 10
    transactions each leave 101 transactions: in the counter, in the map by
    hash and in the per-sender lists, whether the prices differ or are all
    the same. *)
Theorem capacity_exceeded_means_strictly_above :
  (∀ cache,
     isCapacityExceeded cache =
     bool_decide (NumBytes cache > NumBytesThreshold (config cache)
                  ∨ CountSenders cache > CountThreshold (config cache)
                  ∨ CountTx cache > CountThreshold (config cache))%Z)
  ∧ (∀ cache,
       ¬ (NumBytes cache > NumBytesThreshold (config cache)
          ∨ CountSenders cache > CountThreshold (config cache)
          ∨ CountTx cache > CountThreshold (config cache))%Z →
       doEviction cache = (cache, None))
  ∧ scenarioS3Leaves mixedPrices 101
  ∧ scenarioS3Leaves samePrice 101.
Proof.
  split; [exact isCapacityExceeded_decide|]. split.
  - intros cache H. apply doEviction_not_exceeded.
    rewrite isCapacityExceeded_decide. by apply bool_decide_eq_false.
  - split; vm_compute; done.
Qed.

Lemma capacity_exceeded_means_strictly_above_witness :
  doEviction scenarioFullSender = (scenarioFullSender, None)
  ∧ CountTx (cacheOfScenarioS3 mixedPrices) = 101%Z.
Proof.
  destruct capacity_exceeded_means_strictly_above as (_ & Hnone & Hscenario & _).
  split.
  - apply Hnone. vm_compute. intros [H | [H | H]]; discriminate H.
  - apply Hscenario.
Defined.

(** ** [AddTx] *)

(** C5.  [AddTx] of a nil transaction, or of a transaction whose handler is
    nil, returns (false, false) and the state it was given: both maps and all
    counters are as before. *)
Theorem AddTx_nil_does_nothing cache :
  AddTx cache None = (cache, (false, false))
  ∧ ∀ txHash size pricePerGasUnit transferredValue feePayer fee,
      AddTx cache (Some {| Tx := None; TxHash := txHash; Size := size;
                           PricePerGasUnit := pricePerGasUnit;
                           TransferredValue := transferredValue;
                           FeePayer := feePayer; Fee := fee |})
      = (cache, (false, false)).
Proof. split; [done|]. intros. done. Qed.

(** *** The per-sender list under its size constraints *)

Lemma totalBytes_app l1 l2 :
  txListForSender.totalBytes (l1 ++ l2)
  = (txListForSender.totalBytes l1 + txListForSender.totalBytes l2)%Z.
Proof.
  unfold txListForSender.totalBytes.
  induction l1 as [|x l1 IH]; simpl; [done|]. rewrite IH. lia.
Qed.

Lemma totalBytes_rev l :
  txListForSender.totalBytes (rev l) = txListForSender.totalBytes l.
Proof.
  induction l as [|x l IH]; simpl; [done|].
  rewrite totalBytes_app, IH. unfold txListForSender.totalBytes. simpl. lia.
Qed.

Lemma isCapacityExceeded_rev c l :
  txListForSender.isCapacityExceeded c (rev l) = txListForSender.isCapacityExceeded c l.
Proof.
  unfold txListForSender.isCapacityExceeded, txListForSender.countTx.
  by rewrite totalBytes_rev, length_rev.
Qed.

Lemma shrinkFromBack_spec c l :
  ∃ removed,
    l = removed ++ (txListForSender.shrinkFromBack c l).1
    ∧ (txListForSender.shrinkFromBack c l).2 = TxHash <$> removed
    ∧ ((txListForSender.shrinkFromBack c l).1 = []
       ∨ txListForSender.isCapacityExceeded c (txListForSender.shrinkFromBack c l).1 = false).
Proof.
  induction l as [|x l (removed & Hl & He & Hk)].
  - exists []. simpl. auto.
  - cbn [txListForSender.shrinkFromBack].
    destruct (txListForSender.isCapacityExceeded c (x :: l)) eqn:E.
    + destruct (txListForSender.shrinkFromBack c l) as [kept evicted]; simpl in *.
      exists (x :: removed). subst. auto.
    + exists []. simpl. auto.
Qed.

Lemma shrinkFromBack_fixed c l :
  l = [] ∨ txListForSender.isCapacityExceeded c l = false →
  txListForSender.shrinkFromBack c l = (l, []).
Proof.
  intros [-> | H]; [done|].
  destruct l as [|x l]; [done|].
  cbn [txListForSender.shrinkFromBack]. by rewrite H.
Qed.

(** What the shrinking keeps is a prefix of the list; what it drops is the
    rest, and the hashes it returns are those of the dropped ones. *)
Lemma applySizeConstraints_spec c items :
  ∃ removed,
    items = (txListForSender.applySizeConstraints c items).1 ++ removed
    ∧ (∀ h, h ∈ (txListForSender.applySizeConstraints c items).2
            ↔ ∃ x, x ∈ removed ∧ TxHash x = h)
    ∧ ((txListForSender.applySizeConstraints c items).1 = []
       ∨ txListForSender.isCapacityExceeded c
           (txListForSender.applySizeConstraints c items).1 = false).
Proof.
  unfold txListForSender.applySizeConstraints.
  destruct (shrinkFromBack_spec c (rev items)) as (removed & Hl & He & Hk).
  destruct (txListForSender.shrinkFromBack c (rev items)) as [kept evicted]; simpl in *.
  exists (rev removed). split; [|split].
  - rewrite <- rev_app_distr, <- Hl. by rewrite rev_involutive.
  - intros h. rewrite He, list_elem_of_fmap. split.
    + intros (x & -> & Hx). exists x. split; [|done].
      apply list_elem_of_In, in_rev. rewrite rev_involutive. by apply list_elem_of_In.
    + intros (x & Hx & <-). exists x. split; [done|].
      apply list_elem_of_In, in_rev. by apply list_elem_of_In.
  - destruct Hk as [-> | Hk]; [by left|].
    right. by rewrite isCapacityExceeded_rev.
Qed.

Lemma applySizeConstraints_fixed c items :
  items = [] ∨ txListForSender.isCapacityExceeded c items = false →
  txListForSender.applySizeConstraints c items = (items, []).
Proof.
  intros H. unfold txListForSender.applySizeConstraints.
  rewrite shrinkFromBack_fixed.
  - by rewrite rev_involutive.
  - destruct H as [-> | H]; [by left|]. right. by rewrite isCapacityExceeded_rev.
Qed.

Lemma isPresent_true tx items :
  txListForSender.isPresent tx items = true
  ↔ ∃ x, x ∈ items ∧ GetNonce x = GetNonce tx ∧ TxHash x = TxHash tx.
Proof.
  unfold txListForSender.isPresent, txListForSender.sameNonceAndHash.
  rewrite existsb_exists. split.
  - intros (x & Hx & H). apply andb_true_iff in H as [Hn Hh].
    exists x. rewrite list_elem_of_In. split; [done|].
    split; [by apply N.eqb_eq | by apply String.eqb_eq].
  - intros (x & Hx & Hn & Hh). exists x. rewrite <- list_elem_of_In. split; [done|].
    apply andb_true_iff. split; [by apply N.eqb_eq | by apply String.eqb_eq].
Qed.

Lemma insertInOrder_elem tx items x :
  x ∈ txListForSender.insertInOrder tx items ↔ x = tx ∨ x ∈ items.
Proof.
  induction items as [|y items IH]; simpl.
  - rewrite list_elem_of_singleton. split; [auto|]. intros [?|H]; [done|].
    by apply elem_of_nil in H.
  - destruct (txListForSender.comesBefore tx y).
    + by rewrite elem_of_cons.
    + rewrite !elem_of_cons, IH. tauto.
Qed.

Lemma list_AddTx_added c items tx :
  (txListForSender.AddTx c items tx).1.2 = negb (txListForSender.isPresent tx items).
Proof.
  unfold txListForSender.AddTx.
  destruct (txListForSender.isPresent tx items).
  - by destruct (txListForSender.applySizeConstraints c items).
  - by destruct (txListForSender.applySizeConstraints c (txListForSender.insertInOrder tx items)).
Qed.

(** After [AddTx] on a list, a transaction of the nonce and hash of the given
    one is in the list unless its hash is among the evicted; and the list
    kept is within the constraints or empty. *)
Lemma list_AddTx_kept c items tx :
  let r := txListForSender.AddTx c items tx in
  (TxHash tx ∉ r.2 → txListForSender.isPresent tx r.1.1 = true)
  ∧ (r.1.1 = [] ∨ txListForSender.isCapacityExceeded c r.1.1 = false).
Proof.
  unfold txListForSender.AddTx.
  destruct (txListForSender.isPresent tx items) eqn:Hp.
  - destruct (applySizeConstraints_spec c items) as (removed & Hl & He & Hk).
    destruct (txListForSender.applySizeConstraints c items) as [kept evicted]; simpl in *.
    split; [|done]. intros Hne.
    apply isPresent_true in Hp as (x & Hx & Hn & Hh).
    apply isPresent_true. exists x. split; [|done].
    rewrite Hl in Hx. apply elem_of_app in Hx as [Hx|Hx]; [done|].
    exfalso. apply Hne, He. eauto.
  - destruct (applySizeConstraints_spec c (txListForSender.insertInOrder tx items))
      as (removed & Hl & He & Hk).
    destruct (txListForSender.applySizeConstraints c (txListForSender.insertInOrder tx items))
      as [kept evicted]; simpl in *.
    split; [|done]. intros Hne.
    apply isPresent_true. exists tx. split; [|done].
    assert (tx ∈ kept ++ removed) as Hx by (rewrite <- Hl; apply insertInOrder_elem; auto).
    apply elem_of_app in Hx as [Hx|Hx]; [done|].
    exfalso. apply Hne, He. eauto.
Qed.

Lemma list_AddTx_again c items tx :
  txListForSender.isPresent tx items = true →
  items = [] ∨ txListForSender.isCapacityExceeded c items = false →
  txListForSender.AddTx c items tx = (items, false, []).
Proof.
  intros Hp Hk. unfold txListForSender.AddTx. rewrite Hp.
  by rewrite applySizeConstraints_fixed.
Qed.

(** *** The map by sender *)

Lemma addTxReturnEvicted_spec m tx :
  let sender := GetSndAddr tx in
  let r := txListForSender.AddTx (txListBySenderMap.constraints m)
             (default [] (txListBySenderMap.backingMap m !! sender)) tx in
  txListBySenderMap.addTxReturnEvicted m tx =
  ({| txListBySenderMap.backingMap := <[sender := r.1.1]> (txListBySenderMap.backingMap m);
      txListBySenderMap.counter :=
        match txListBySenderMap.backingMap m !! sender with
        | Some _ => txListBySenderMap.counter m
        | None => txListBySenderMap.counter m + 1
        end;
      txListBySenderMap.constraints := txListBySenderMap.constraints m |},
   r.1.2, r.2).
Proof.
  intros sender r. subst r sender.
  unfold txListBySenderMap.addTxReturnEvicted, txListBySenderMap.getOrAddListForSender,
    txListBySenderMap.setList.
  destruct (txListBySenderMap.backingMap m !! GetSndAddr tx) as [items|] eqn:E; simpl.
  - by destruct (txListForSender.AddTx _ items tx) as [[kept added] evicted].
  - destruct (txListForSender.AddTx _ [] tx) as [[kept added] evicted]; simpl.
    by rewrite insert_insert_eq.
Qed.

Lemma evictBeforeAdd_config cache :
  EvictionEnabled (config cache) = false ∨ isCapacityExceeded cache = false →
  evictBeforeAdd cache = cache.
Proof.
  intros [H | H]; unfold evictBeforeAdd.
  - by rewrite H.
  - rewrite doEviction_not_exceeded by done. by destruct (EvictionEnabled (config cache)).
Qed.

(** [AddTx] on a transaction with a handler, laid out: the state after the
    optional eviction, then the two insertions. *)
Lemma AddTx_unfold cache tx t :
  Tx tx = Some t →
  let tx' := precomputeFields (host cache) tx in
  let cache1 := evictBeforeAdd cache in
  let byHash := txByHashMap.addTx (txByHash cache1) tx' in
  let bySender := txListBySenderMap.addTxReturnEvicted (txListBySender cache1) tx' in
  AddTx cache (Some tx) =
  (setTxByHash (setTxListBySender cache1 bySender.1.1)
     (match bySender.2 with
      | [] => byHash.1
      | _ :: _ => (txByHashMap.RemoveTxsBulk byHash.1 bySender.2).1
      end),
   (true, byHash.2 || bySender.1.2)).
Proof.
  intros Ht tx' cache1 byHash bySender. subst tx' cache1 byHash bySender.
  unfold AddTx. rewrite Ht.
  destruct (txByHashMap.addTx _ _) as [bh a1].
  by destruct (txListBySenderMap.addTxReturnEvicted _ _) as [[bs a2] ev].
Qed.

Lemma evictionPasses_config_host fuel : ∀ cache h journal,
  config (evictionPasses fuel cache h journal).1 = config cache
  ∧ host (evictionPasses fuel cache h journal).1 = host cache.
Proof.
  induction fuel as [|fuel IH]; intros cache h journal; simpl; [done|].
  destruct (isCapacityExceeded cache); [|done].
  destruct (collectTransactionsToEvict _ h []) as [[|tx txs] h']; [done|].
  destruct (IH (evictTransactions cache (tx :: txs)) h'
              (recordPass journal (length (tx :: txs)))) as [Hc Hh].
  by rewrite Hc, Hh.
Qed.

Lemma doEviction_config_host cache :
  config (doEviction cache).1 = config cache ∧ host (doEviction cache).1 = host cache.
Proof.
  unfold doEviction.
  destruct (isEvictionInProgress cache); [done|].
  destruct (isCapacityExceeded cache) eqn:E; simpl; [|done].
  unfold evictLeastLikelyToSelectTransactions.
  pose proof (evictionPasses_config_host
    (S (heapTotal (initialHeap (bunchesOf (setEvictionInProgress cache true)))))
    (setEvictionInProgress cache true)
    (initialHeap (bunchesOf (setEvictionInProgress cache true)))
    {| numEvicted := 0; numEvictedByPass := [] |}) as H.
  destruct (evictionPasses _ _ _ _) as [cache2 journal].
  rewrite isCapacityExceeded_flag, E. exact H.
Qed.

Lemma evictBeforeAdd_config_host cache :
  config (evictBeforeAdd cache) = config cache ∧ host (evictBeforeAdd cache) = host cache.
Proof.
  unfold evictBeforeAdd. destruct (EvictionEnabled (config cache)); [|done].
  apply doEviction_config_host.
Qed.

(** C6.  For a transaction with a handler, [AddTx] answers [true] as its
    first component, and as its second the disjunction of what the two
    insertions report: the hash was not yet in the map by hash, or no
    transaction of that nonce and hash was yet in the list of the sender
    (both looked up after the eviction that may precede).  The second
    component is [true] also when the per-sender limit throws the transaction
    out again within the same call: alice holds three transactions under a
    limit of three, a fourth is added, the answer is (true, true), and the
    cache holds neither its hash nor a fourth transaction of alice. *)
Theorem AddTx_reports_change_of_either_map :
  (∀ cache tx t,
     Tx tx = Some t →
     let tx' := precomputeFields (host cache) tx in
     let cache1 := evictBeforeAdd cache in
     let addedInByHash := bool_decide (GetByTxHash cache1 (TxHash tx') = None) in
     let addedInBySender :=
       negb (txListForSender.isPresent tx'
               (default [] (GetTransactionsPoolForSender cache1 (GetSndAddr tx')))) in
     (AddTx cache (Some tx)).2 = (true, addedInByHash || addedInBySender))
  ∧ (let '(cache', (ok, added)) := AddTx scenarioFullSender (Some txAlice4) in
     ok = true ∧ added = true
     ∧ GetByTxHash cache' "tx-alice-4" = None
     ∧ TxHash <$> default [] (GetTransactionsPoolForSender scenarioFullSender "alice")
       = ["tx-alice-1"; "tx-alice-2"; "tx-alice-3"]
     ∧ TxHash <$> default [] (GetTransactionsPoolForSender cache' "alice")
       = ["tx-alice-1"; "tx-alice-2"; "tx-alice-3"]).
Proof.
  split.
  - intros cache tx t Ht tx' cache1 a1 a2.
    rewrite (AddTx_unfold cache tx t Ht). cbn [snd].
    fold tx' cache1. rewrite addTx_added, addTxReturnEvicted_spec. cbn [fst snd].
    by rewrite list_AddTx_added.
  - vm_compute. done.
Qed.

Lemma AddTx_reports_change_of_either_map_witness :
  (AddTx scenarioFullSender (Some (createTx "tx-bob-1" "bob" 1 1 128))).2 = (true, true)
  ∧ (AddTx scenarioFullSender (Some (createTx "tx-alice-2" "alice" 2 1 128))).2 = (true, false).
Proof.
  split.
  - exact (proj1 AddTx_reports_change_of_either_map scenarioFullSender
             (createTx "tx-bob-1" "bob" 1 1 128) _ eq_refl).
  - exact (proj1 AddTx_reports_change_of_either_map scenarioFullSender
             (createTx "tx-alice-2" "alice" 2 1 128) _ eq_refl).
Defined.

(** C7 as stated fails: with eviction disabled, alice at her limit of three
    and a fourth transaction added twice, the second call answers
    added = true again (the first call threw the transaction out, so the
    second inserts it anew). *)
Lemma second_AddTx_reports_added_after_overflow :
  EvictionEnabled (config scenarioFullSender) = false
  ∧ let cache1 := (AddTx scenarioFullSender (Some txAlice4)).1 in
    let '(cache2, (ok, added)) := AddTx cache1 (Some txAlice4) in
    added = true ∧ added ≠ false.
Proof. vm_compute. done. Qed.

(** C7, as the code has it.  For a transaction with a handler and any cache
    state: if the first [AddTx] leaves the hash of the transaction in the
    cache (the per-sender limit did not throw it out again), and eviction is
    disabled or the capacity is not exceeded when the second call starts,
    then the second [AddTx] of the same transaction returns exactly the state
    the first one left and answers (true, false).  That holds whether the
    second call is handed the transaction as it was or with its fields
    precomputed by the first call. *)
Theorem AddTx_twice_is_AddTx_once cache tx t :
  Tx tx = Some t →
  let cache1 := (AddTx cache (Some tx)).1 in
  is_Some (GetByTxHash cache1 (TxHash tx)) →
  EvictionEnabled (config cache) = false ∨ isCapacityExceeded cache1 = false →
  AddTx cache1 (Some tx) = (cache1, (true, false))
  ∧ AddTx cache1 (Some (precomputeFields (host cache) tx)) = (cache1, (true, false)).
Proof.
  intros Ht cache1 Hheld Hquiet.
  pose proof (evictBeforeAdd_config_host cache) as [Hcfg Hhost].
  set (tx' := precomputeFields (host cache) tx).
  assert (Tx tx' = Some t) as Ht' by (subst tx'; by rewrite precomputeFields_Tx).
  assert (precomputeFields (host cache) tx' = tx') as Hidem
    by apply precomputeFields_idempotent.
  assert (TxHash tx' = TxHash tx) as Hh by apply precomputeFields_TxHash.
  (* the first call *)
  pose proof (AddTx_unfold cache tx t Ht) as H1. cbv zeta in H1. fold tx' in H1.
  rewrite addTxReturnEvicted_spec in H1. cbn [fst snd] in H1.
  set (cache0 := evictBeforeAdd cache) in *.
  set (m0 := txListBySender cache0) in *.
  set (r := txListForSender.AddTx (txListBySenderMap.constraints m0)
              (default [] (txListBySenderMap.backingMap m0 !! GetSndAddr tx')) tx') in *.
  destruct (list_AddTx_kept (txListBySenderMap.constraints m0)
              (default [] (txListBySenderMap.backingMap m0 !! GetSndAddr tx')) tx')
    as [Hkept Hwithin].
  fold r in Hkept, Hwithin.
  assert (cache1 = (AddTx cache (Some tx)).1) as Hc1 by done.
  rewrite H1 in Hc1. cbn [fst] in Hc1.
  assert (TxHash tx' ∉ r.2) as Hnot.
  { intros Hin. destruct Hheld as [x Hx]. rewrite Hc1 in Hx.
    unfold GetByTxHash, txByHashMap.getTx in Hx. cbn [txByHash setTxByHash] in Hx.
    rewrite RemoveTxsBulk_nil_or, <- Hh in Hx. by rewrite decide_True in Hx. }
  specialize (Hkept Hnot).
  assert (config cache1 = config cache) as Hcfg1 by (by rewrite Hc1).
  assert (host cache1 = host cache) as Hhost1 by (by rewrite Hc1).
  assert (evictBeforeAdd cache1 = cache1) as Hev.
  { apply evictBeforeAdd_config. rewrite Hcfg1. exact Hquiet. }
  (* the second call, on the precomputed transaction *)
  assert (AddTx cache1 (Some tx') = (cache1, (true, false))) as H2.
  { rewrite (AddTx_unfold cache1 tx' t Ht'). cbv zeta.
    rewrite Hhost1, Hidem, Hev.
    rewrite addTx_present by (rewrite Hh; exact Hheld).
    rewrite addTxReturnEvicted_spec. cbn [fst snd].
    assert (txListBySenderMap.backingMap (txListBySender cache1) !! GetSndAddr tx'
            = Some r.1.1) as Hlist.
    { rewrite Hc1. cbn. by rewrite lookup_insert_eq. }
    assert (txListBySenderMap.constraints (txListBySender cache1)
            = txListBySenderMap.constraints m0) as Hcon by (by rewrite Hc1).
    rewrite Hlist, Hcon. cbn [default from_option id].
    rewrite (list_AddTx_again _ _ _ Hkept Hwithin). cbn [fst snd].
    f_equal.
    destruct cache1 as [n bs bh cf ho fl] eqn:Ecache.
    unfold setTxByHash, setTxListBySender. cbn in *. f_equal.
    destruct bs as [bm cnt con]. cbn in *. f_equal; [by apply insert_id | done]. }
  split; [|exact H2].
  rewrite <- H2. unfold AddTx. rewrite Ht, Ht'.
  rewrite Hhost1. fold tx'. by rewrite Hidem.
Qed.

Lemma AddTx_twice_is_AddTx_once_witness :
  let tx := createTx "tx-bob-1" "bob" 1 1 128 in
  let cache1 := (AddTx scenarioFullSender (Some tx)).1 in
  AddTx cache1 (Some tx) = (cache1, (true, false)).
Proof.
  intros tx cache1.
  refine (proj1 (AddTx_twice_is_AddTx_once scenarioFullSender tx _ eq_refl _ _)).
  - vm_compute. eauto.
  - left. reflexivity.
Defined.

(** ** [RemoveTxByHash] *)

Lemma removeSenderIfEmpty_lookup m s s' :
  txListBySenderMap.backingMap (txListBySenderMap.removeSenderIfEmpty m s) !! s' =
  if decide (s' = s)
  then match txListBySenderMap.backingMap m !! s with
       | Some [] => None
       | o => o
       end
  else txListBySenderMap.backingMap m !! s'.
Proof.
  unfold txListBySenderMap.removeSenderIfEmpty.
  destruct (txListBySenderMap.backingMap m !! s) as [[|x items]|] eqn:E; simpl.
  - rewrite lookup_delete. destruct (decide (s' = s)) as [->|?].
    + by rewrite decide_True.
    + by rewrite decide_False.
  - destruct (decide (s' = s)) as [->|?]; done.
  - destruct (decide (s' = s)) as [->|?]; done.
Qed.

(** The list of a sender after a removal that keeps [kept]: gone when nothing
    is kept. *)
Lemma removeSenderIfEmpty_setList_pool m s kept s' :
  default [] (txListBySenderMap.backingMap
                (txListBySenderMap.removeSenderIfEmpty
                   (txListBySenderMap.setList m s kept) s) !! s')
  = if decide (s' = s) then kept
    else default [] (txListBySenderMap.backingMap m !! s').
Proof.
  rewrite removeSenderIfEmpty_lookup. unfold txListBySenderMap.setList. simpl.
  destruct (decide (s' = s)) as [->|Hne].
  - rewrite lookup_insert_eq. by destruct kept.
  - by rewrite lookup_insert_ne.
Qed.

Lemma bySender_removeLowerOrEqual_spec m tx :
  let items := default [] (txListBySenderMap.backingMap m !! GetSndAddr tx) in
  let r := txListBySenderMap.removeTransactionsWithLowerOrEqualNonceReturnHashes m tx in
  r.2 = TxHash <$> filter (λ x, (GetNonce x ≤ GetNonce tx)%N) items
  ∧ ∀ s', default [] (txListBySenderMap.backingMap r.1 !! s')
          = if decide (s' = GetSndAddr tx)
            then filter (λ x, (GetNonce tx < GetNonce x)%N) items
            else default [] (txListBySenderMap.backingMap m !! s').
Proof.
  unfold txListBySenderMap.removeTransactionsWithLowerOrEqualNonceReturnHashes,
    txListBySenderMap.getListForSender,
    txListForSender.removeTransactionsWithLowerOrEqualNonceReturnHashes.
  destruct (txListBySenderMap.backingMap m !! GetSndAddr tx) as [items|] eqn:E; simpl.
  - split; [done|]. intros s'. apply removeSenderIfEmpty_setList_pool.
  - split; [done|]. intros s'.
    destruct (decide (s' = GetSndAddr tx)) as [->|?]; [by rewrite E | done].
Qed.

(** C1, as the code has it.  If the hash is not in the map by hash,
    [RemoveTxByHash] answers [false] and returns the state unchanged.
    Otherwise, with [tx] the transaction found, it answers [true]; the hash
    is gone from the map by hash; the list of the sender of [tx] keeps
    exactly its transactions of greater nonce; the hash of every transaction
    that list held with a nonce lower than or equal to that of [tx] is gone
    from the map by hash; nothing enters the map by hash.  A transaction of
    that sender and of lower or equal nonce that only the map by hash holds
    is not looked for; when the two maps agree on the sender, no transaction
    of the sender with a nonce lower than or equal to that of [tx] remains in
    either map. *)
Theorem RemoveTxByHash_removes_lower_or_equal_nonces cache txHash :
  (GetByTxHash cache txHash = None → RemoveTxByHash cache txHash = (cache, false))
  ∧ (∀ tx,
       GetByTxHash cache txHash = Some tx →
       let sender := GetSndAddr tx in
       let cache' := (RemoveTxByHash cache txHash).1 in
       let items := default [] (GetTransactionsPoolForSender cache sender) in
       (RemoveTxByHash cache txHash).2 = true
       ∧ GetByTxHash cache' txHash = None
       ∧ default [] (GetTransactionsPoolForSender cache' sender)
         = filter (λ x, (GetNonce tx < GetNonce x)%N) items
       ∧ (∀ x, x ∈ items → (GetNonce x ≤ GetNonce tx)%N →
               GetByTxHash cache' (TxHash x) = None)
       ∧ (∀ h x, GetByTxHash cache' h = Some x → GetByTxHash cache h = Some x)
       ∧ (mapsAgreeOn cache sender →
          ∀ h x, GetByTxHash cache' h = Some x → GetSndAddr x = sender →
                 (GetNonce tx < GetNonce x)%N)).
Proof.
  split.
  - intros E. unfold RemoveTxByHash. rewrite removeTx_absent by done.
    by destruct cache.
  - intros tx E sender cache' items.
    unfold GetByTxHash, txByHashMap.getTx, GetTransactionsPoolForSender,
      txListBySenderMap.getListForSender in *.
    pose proof (removeTx_lookup (txByHash cache) txHash) as Hrm.
    pose proof (removeTx_found (txByHash cache) txHash) as Hfound.
    pose proof (bySender_removeLowerOrEqual_spec (txListBySender cache) tx) as [Hev Hpool].
    subst cache'. unfold RemoveTxByHash.
    destruct (txByHashMap.removeTx (txByHash cache) txHash) as [byHash found].
    cbn [fst snd] in Hrm, Hfound. rewrite E in Hfound. subst found.
    destruct (txListBySenderMap.removeTransactionsWithLowerOrEqualNonceReturnHashes
                (txListBySender cache) tx) as [bySender evicted].
    cbn [fst snd] in Hev, Hpool |- *. cbn [txByHash txListBySender setTxByHash setTxListBySender].
    fold sender in Hev, Hpool. fold items in Hev, Hpool.
    assert (∀ h, txByHashMap.backingMap
                   (match evicted with
                    | [] => byHash
                    | _ :: _ => (txByHashMap.RemoveTxsBulk byHash evicted).1
                    end) !! h
                 = if decide (h ∈ evicted) then None
                   else if decide (h = txHash) then None
                   else txByHashMap.backingMap (txByHash cache) !! h) as Hlook.
    { intros h. by rewrite RemoveTxsBulk_nil_or, Hrm. }
    split; [done|]. split; [|split; [|split; [|split]]].
    + rewrite Hlook. destruct (decide (txHash ∈ evicted)); [done|]. by rewrite decide_True.
    + rewrite Hpool. by rewrite decide_True.
    + intros x Hx Hle. rewrite Hlook. rewrite decide_True; [done|].
      rewrite Hev. apply list_elem_of_fmap_2. by apply list_elem_of_filter.
    + intros h x. rewrite Hlook.
      destruct (decide (h ∈ evicted)); [done|]. by destruct (decide (h = txHash)).
    + intros Hagree h x Hx Hs.
      destruct (N.lt_ge_cases (GetNonce tx) (GetNonce x)) as [Hlt|Hle]; [done|].
      exfalso. rewrite Hlook in Hx.
      destruct (decide (h ∈ evicted)) as [|Hnot]; [done|].
      destruct (decide (h = txHash)); [done|].
      destruct (Hagree h x Hx Hs) as [-> Hin].
      apply Hnot. rewrite Hev. apply list_elem_of_fmap_2. by apply list_elem_of_filter.
Qed.

Lemma RemoveTxByHash_removes_lower_or_equal_nonces_witness :
  RemoveTxByHash scenarioS7 "missing" = (scenarioS7, false)
  ∧ (RemoveTxByHash scenarioS7 "hash-2").2 = true
  ∧ TxHash <$> default [] (GetTransactionsPoolForSender
                             (RemoveTxByHash scenarioS7 "hash-2").1 "alice")
    = ["hash-3"]
  ∧ ∀ h x, GetByTxHash (RemoveTxByHash scenarioS7 "hash-2").1 h = Some x →
           GetSndAddr x = "alice" → (2 < GetNonce x)%N.
Proof.
  split; [|split; [|split]].
  - apply (proj1 (RemoveTxByHash_removes_lower_or_equal_nonces scenarioS7 "missing")).
    reflexivity.
  - vm_compute. reflexivity.
  - vm_compute. reflexivity.
  - refine (proj2 (proj2 (proj2 (proj2 (proj2
      (proj2 (RemoveTxByHash_removes_lower_or_equal_nonces scenarioS7 "hash-2")
         (precomputeFields testHost (createTx "hash-2" "alice" 2 1 128)) eq_refl))))) _).
    unfold mapsAgreeOn. apply (bool_decide_unpack _). vm_compute. exact I.
Defined.

(** C1 as stated fails on a state that additions alone reach.  Two
    transactions of alice with the same nonce 1, one of bob, then a fourth
    addition that makes the eviction drop one of alice's two: the pass takes
    both out of her list and one out of the map by hash.  After alice's
    nonce 2 is added and removed by hash, the cache still answers for the
    hash "a1b" with a transaction of alice of nonce 1. *)
Lemma RemoveTxByHash_leaves_lower_nonce_held_by_hash_only :
  ∃ tx x,
    GetByTxHash scenarioSameNonce "a2" = Some tx
    ∧ GetSndAddr tx = "alice" ∧ GetNonce tx = 2%N
    ∧ (RemoveTxByHash scenarioSameNonce "a2").2 = true
    ∧ GetByTxHash (RemoveTxByHash scenarioSameNonce "a2").1 "a1b" = Some x
    ∧ GetSndAddr x = "alice" ∧ (GetNonce x ≤ GetNonce tx)%N.
Proof.
  eexists _, _. vm_compute. repeat split; try reflexivity. discriminate.
Qed.

(** ** The passes of the eviction *)

Lemma heapPop_None h : heapPop h = None → h = [].
Proof.
  destruct h as [|x h]; [done|]. simpl.
  destruct (heapPop h) as [[y r]|]; [|done].
  by destruct (isWorse (currentTransaction y) (currentTransaction x)).
Qed.

(** [heapPop] takes one item out and leaves the others. *)
Lemma heapPop_Permutation h : ∀ x r, heapPop h = Some (x, r) → h ≡ₚ x :: r.
Proof.
  induction h as [|a h IH]; intros x r; simpl; [done|].
  destruct (heapPop h) as [[y r']|] eqn:E.
  - destruct (isWorse (currentTransaction y) (currentTransaction a)); intros [= <- <-].
    + rewrite (IH y r' eq_refl). apply perm_swap.
    + done.
  - intros [= <- <-]. by rewrite (heapPop_None h E).
Qed.

Lemma heapTotal_Permutation h1 h2 : h1 ≡ₚ h2 → heapTotal h1 = heapTotal h2.
Proof.
  induction 1 as [|x l1 l2 _ IH|x y l|l1 l2 l3 _ IH1 _ IH2];
    unfold heapTotal in *; simpl in *; lia.
Qed.

Lemma heapOrdered_Permutation h1 h2 : h1 ≡ₚ h2 → heapOrdered h1 → heapOrdered h2.
Proof.
  intros Hp [Hf Hn]. split.
  - by rewrite <- Hp.
  - unfold heapSenders in *. by rewrite <- Hp.
Qed.

Lemma itemOrdered_next item item' :
  itemOrdered item → gotoNextTransaction item = Some item' →
  itemOrdered item'
  ∧ itemSender item' = itemSender item
  ∧ itemTransactions item' = remaining item.
Proof.
  intros [Hs Ho]. unfold gotoNextTransaction, newTransactionsHeapItem.
  destruct (remaining item) as [|tx rest] eqn:E; [done|]. intros [= <-].
  unfold itemOrdered, itemTransactions, itemSender in *. simpl. rewrite E in *.
  apply Forall_cons in Hs as [_ Hs]. apply StronglySorted_inv in Ho as [Ho _].
  pose proof Hs as Hs'. apply Forall_cons in Hs' as [Htx _].
  rewrite Htx. done.
Qed.

(** One run of the inner loop keeps the heap ordered, and what it collects
    of a sender comes in the order of the sender's bunch. *)
Lemma collect_ordered k : ∀ h collected,
  heapOrdered h → collectedAhead collected h → StronglySorted laterNotHigher collected →
  heapOrdered (collectTransactionsToEvict k h collected).2
  ∧ collectedAhead (collectTransactionsToEvict k h collected).1
                   (collectTransactionsToEvict k h collected).2
  ∧ StronglySorted laterNotHigher (collectTransactionsToEvict k h collected).1.
Proof.
  induction k as [|k IH]; intros h collected Hh Ha Hc; simpl.
  - destruct (heapPop h) as [[item h']|] eqn:E; simpl; [|done].
    pose proof (heapPop_Permutation h item h' E) as Hp.
    apply (heapOrdered_Permutation _ _ Hp) in Hh as [Hf Hn].
    apply Forall_cons in Hf as [_ Hf]. apply NoDup_cons in Hn as [_ Hn].
    split; [by split|]. split; [|done].
    intros item2 tx y Hi. apply Ha. rewrite Hp. by apply list_elem_of_further.
  - destruct (heapPop h) as [[item h']|] eqn:E; simpl; [|done].
    pose proof (heapPop_Permutation h item h' E) as Hp.
    pose proof (heapOrdered_Permutation _ _ Hp Hh) as [Hf Hn].
    apply Forall_cons in Hf as [Hitem Hf]. cbn in Hn. apply NoDup_cons in Hn as [Hfresh Hn].
    assert (item ∈ h) as Hin by (rewrite Hp; apply list_elem_of_here).
    assert (∀ item2, item2 ∈ h' → item2 ∈ h) as Hsub
      by (intros item2 ?; rewrite Hp; by apply list_elem_of_further).
    assert (∀ item2, item2 ∈ h' → itemSender item2 ≠ itemSender item) as Hother.
    { intros item2 Hi Heq. apply Hfresh. unfold itemSender in Heq. rewrite <- Heq.
      unfold heapSenders. by apply (list_elem_of_fmap_2 (λ i, GetSndAddr (currentTransaction i))). }
    assert (StronglySorted laterNotHigher (collected ++ [currentTransaction item])) as Hc'.
    { apply StronglySorted_app_2; [|done|repeat constructor].
      intros x1 x2 Hx1 ->%list_elem_of_singleton Heq.
      apply (Ha item x1 (currentTransaction item) Hin Hx1 Heq). apply list_elem_of_here. }
    destruct (gotoNextTransaction item) as [item'|] eqn:G.
    + destruct (itemOrdered_next item item' Hitem G) as (Hitem' & Hsame & Htxs).
      apply IH; [split| |done].
      * by apply Forall_cons.
      * cbn. apply NoDup_cons. fold (itemSender item'). rewrite Hsame. by split.
      * intros item2 tx y Hi Htx Hs Hy.
        apply elem_of_cons in Hi as [-> | Hi].
        -- rewrite Htxs in Hy. rewrite Hsame in Hs.
           apply elem_of_app in Htx as [Htx | ->%list_elem_of_singleton].
           ++ apply (Ha item tx y Hin Htx Hs). by apply list_elem_of_further.
           ++ destruct Hitem as [_ Ho]. apply StronglySorted_inv in Ho as [_ Ho].
              by apply (proj1 (Forall_forall _ _) Ho).
        -- apply elem_of_app in Htx as [Htx | ->%list_elem_of_singleton].
           ++ by apply (Ha item2 tx y (Hsub _ Hi) Htx Hs).
           ++ exfalso. by apply (Hother item2 Hi).
    + apply IH; [by split| |done].
      intros item2 tx y Hi Htx Hs Hy.
      apply elem_of_app in Htx as [Htx | ->%list_elem_of_singleton].
      * by apply (Ha item2 tx y (Hsub _ Hi) Htx Hs).
      * exfalso. by apply (Hother item2 Hi).
Qed.

Lemma lowestToEvictBySender_snoc txs tx :
  lowestToEvictBySender (txs ++ [tx])
  = <[GetSndAddr tx := GetNonce tx]> (lowestToEvictBySender txs).
Proof. unfold lowestToEvictBySender. by rewrite foldl_app. Qed.

(** When the transactions of each sender come from the highest nonce down,
    the entry that is written last for a sender is its lowest nonce. *)
Lemma lowestToEvictBySender_spec txs :
  StronglySorted laterNotHigher txs →
  ∀ sender,
    match lowestToEvictBySender txs !! sender with
    | None => ∀ tx, tx ∈ txs → GetSndAddr tx ≠ sender
    | Some nonce =>
        (∃ tx, tx ∈ txs ∧ GetSndAddr tx = sender ∧ GetNonce tx = nonce)
        ∧ ∀ tx, tx ∈ txs → GetSndAddr tx = sender → (nonce ≤ GetNonce tx)%N
    end.
Proof.
  induction txs as [|t txs IH] using rev_ind; intros Hs sender.
  - cbn. rewrite lookup_empty. by intros tx ?%elem_of_nil.
  - apply StronglySorted_app in Hs as (Hcross & Hs & _).
    specialize (IH Hs sender).
    rewrite lowestToEvictBySender_snoc.
    destruct (decide (GetSndAddr t = sender)) as [<- | Hne].
    + rewrite lookup_insert_eq. split.
      * exists t. split; [|done]. apply elem_of_app. right. apply list_elem_of_here.
      * intros tx [Hin | ->%list_elem_of_singleton]%elem_of_app Heq; [|done].
        apply (Hcross tx t Hin); [apply list_elem_of_here | done].
    + rewrite lookup_insert_ne by done.
      destruct (lowestToEvictBySender txs !! sender) as [nonce|].
      * destruct IH as [(tx & Hin & Heq & Hn) Hmin]. split.
        -- exists tx. split; [|done]. apply elem_of_app. by left.
        -- intros tx' [Hin' | ->%list_elem_of_singleton]%elem_of_app Heq'; [by apply Hmin | done].
      * intros tx [Hin | ->%list_elem_of_singleton]%elem_of_app; [by apply IH | done].
Qed.

Lemma removeHigherOrEqual_pool m sender nonce s :
  default [] (txListBySenderMap.backingMap
                (txListBySenderMap.removeTransactionsWithHigherOrEqualNonce m sender nonce) !! s)
  = if decide (s = sender)
    then filter (λ x, (GetNonce x < nonce)%N)
                (default [] (txListBySenderMap.backingMap m !! s))
    else default [] (txListBySenderMap.backingMap m !! s).
Proof.
  unfold txListBySenderMap.removeTransactionsWithHigherOrEqualNonce,
    txListBySenderMap.getListForSender,
    txListForSender.removeTransactionsWithHigherOrEqualNonce.
  destruct (txListBySenderMap.backingMap m !! sender) as [items|] eqn:E.
  - rewrite removeSenderIfEmpty_setList_pool.
    destruct (decide (s = sender)) as [->|?]; [by rewrite E | done].
  - destruct (decide (s = sender)) as [->|?]; [by rewrite E | done].
Qed.

Lemma removeEntries_pool (entries : list (string * N)) : ∀ m s,
  NoDup entries.*1 →
  default [] (txListBySenderMap.backingMap
                (foldl (λ acc entry,
                          txListBySenderMap.removeTransactionsWithHigherOrEqualNonce
                            acc entry.1 entry.2) m entries) !! s)
  = match (list_to_map entries : gmap string N) !! s with
    | Some nonce => filter (λ x, (GetNonce x < nonce)%N)
                           (default [] (txListBySenderMap.backingMap m !! s))
    | None => default [] (txListBySenderMap.backingMap m !! s)
    end.
Proof.
  induction entries as [|[sender nonce] entries IH]; intros m s Hnd; simpl; [done|].
  cbn in Hnd. apply NoDup_cons in Hnd as [Hfresh Hnd].
  rewrite (IH _ s Hnd), removeHigherOrEqual_pool.
  destruct (decide (s = sender)) as [->|Hne].
  - rewrite lookup_insert_eq.
    by rewrite (not_elem_of_list_to_map_1 (M := gmap string) entries sender Hfresh).
  - by rewrite lookup_insert_ne.
Qed.

(** After the removals of a pass the list of a sender that has an entry keeps
    the transactions below the nonce of the entry; the other lists are as
    they were. *)
Lemma removeLowestToEvict_pool m lowest s :
  default [] (txListBySenderMap.backingMap (removeLowestToEvict m lowest) !! s)
  = match lowest !! s with
    | Some nonce => filter (λ x, (GetNonce x < nonce)%N)
                           (default [] (txListBySenderMap.backingMap m !! s))
    | None => default [] (txListBySenderMap.backingMap m !! s)
    end.
Proof.
  unfold removeLowestToEvict.
  rewrite removeEntries_pool by apply NoDup_fst_map_to_list.
  by rewrite list_to_map_to_list.
Qed.

Lemma StronglySorted_rev_flip {A} (R : relation A) l :
  StronglySorted R l → StronglySorted (flip R) (rev l).
Proof.
  induction 1 as [|a l _ IH Ha]; simpl; [constructor|].
  apply StronglySorted_app_2; [|done|repeat constructor].
  intros x1 x2 Hx1 ->%list_elem_of_singleton. unfold flip.
  apply (proj1 (Forall_forall _ _) Ha).
  apply list_elem_of_In, in_rev, list_elem_of_In. exact Hx1.
Qed.

Lemma initialHeap_ordered_from (l : list (string * list WrappedTransaction)) : ∀ h,
  NoDup l.*1 →
  Forall (λ entry, senderListOrdered entry.1 entry.2) l →
  heapOrdered h →
  (∀ s, s ∈ heapSenders h → s ∉ l.*1) →
  heapOrdered
    (foldl (λ h bunch, match newTransactionsHeapItem bunch with
                       | Some item => heapPush h item
                       | None => h
                       end) h ((λ entry, txListForSender.getTxsReversed entry.2) <$> l)).
Proof.
  unfold txListForSender.getTxsReversed.
  induction l as [|[sender items] l IH]; intros h Hnd Hl Hh Hdisj; simpl; [done|].
  cbn in Hnd. apply NoDup_cons in Hnd as [Hfresh Hnd].
  apply Forall_cons in Hl as [[Hsender Hasc] Hl]. cbn in Hsender, Hasc.
  destruct (rev items) as [|tx rest] eqn:E; simpl.
  - apply IH; [done..|]. intros s Hs Hin. apply (Hdisj s Hs). cbn. by apply list_elem_of_further.
  - assert (Forall (λ x, GetSndAddr x = sender) (tx :: rest)) as Hrev.
    { rewrite <- E. apply Forall_forall. intros x Hx.
      apply (proj1 (Forall_forall _ _) Hsender).
      apply list_elem_of_In, in_rev, list_elem_of_In. exact Hx. }
    pose proof Hrev as Htx. apply Forall_cons in Htx as [Htx _].
    apply IH; [done..| |].
    + destruct Hh as [Hf Hn]. split.
      * apply Forall_cons. split; [|done].
        unfold itemOrdered, itemTransactions, itemSender. simpl. rewrite Htx. split; [done|].
        rewrite <- E. apply (StronglySorted_rev_flip _ _ Hasc).
      * unfold heapPush. cbn. apply NoDup_cons. split; [|done].
        rewrite Htx. intros Hin. apply (Hdisj sender Hin). cbn. apply list_elem_of_here.
    + intros s Hs Hin. unfold heapPush in Hs. cbn in Hs.
      apply elem_of_cons in Hs as [-> | Hs].
      * by rewrite Htx in Hin.
      * apply (Hdisj s Hs). cbn. by apply list_elem_of_further.
Qed.

(** The heap the passes start with is ordered when the per-sender lists
    are. *)
Lemma initialHeap_ordered cache :
  senderListsOrdered cache → heapOrdered (initialHeap (bunchesOf cache)).
Proof.
  intros Hc. unfold initialHeap, bunchesOf, txListBySenderMap.getSenders.
  rewrite <- list_fmap_compose.
  apply (initialHeap_ordered_from
           (map_to_list (txListBySenderMap.backingMap (txListBySender cache))) []).
  - apply NoDup_fst_map_to_list.
  - apply Forall_forall. intros [s items] Hin.
    apply elem_of_map_to_list in Hin. by apply Hc in Hin.
  - split; constructor.
  - by intros s ?%elem_of_nil.
Qed.

Lemma passStates_ordered fuel : ∀ cache h,
  heapOrdered h →
  ∀ c' h', (c', h') ∈ passStates fuel cache h → heapOrdered h'.
Proof.
  induction fuel as [|fuel IH]; intros cache h Hh c' h'; simpl.
  - by intros ?%elem_of_nil.
  - destruct (isCapacityExceeded cache); [|by intros ?%elem_of_nil].
    pose proof (collect_ordered (Z.to_nat (NumItemsToPreemptivelyEvict (config cache))) h [] Hh)
      as Hcol.
    destruct (collectTransactionsToEvict _ h []) as [[|tx txs] h1];
      [by intros ?%elem_of_nil|].
    intros [[= -> ->] | Hin]%elem_of_cons; [done|].
    refine (IH _ h1 _ c' h' Hin).
    apply Hcol; [|constructor]. by intros item t y _ ?%elem_of_nil.
Qed.

(** *** The passes end: the fuel of [evictionPasses] is enough *)

Lemma heapPop_total h item h' :
  heapPop h = Some (item, h') →
  heapTotal h = S (length (remaining item)) + heapTotal h'.
Proof.
  intros E. by rewrite (heapTotal_Permutation _ _ (heapPop_Permutation h item h' E)).
Qed.

(** Every transaction collected is one the heap no longer holds. *)
Lemma collect_total k : ∀ h collected,
  (heapTotal (collectTransactionsToEvict k h collected).2
   + length (collectTransactionsToEvict k h collected).1
   ≤ heapTotal h + length collected)%nat.
Proof.
  induction k as [|k IH]; intros h collected; simpl.
  - destruct (heapPop h) as [[item h']|] eqn:E; simpl; [|lia].
    rewrite (heapPop_total h item h' E). lia.
  - destruct (heapPop h) as [[item h']|] eqn:E; simpl; [|lia].
    rewrite (heapPop_total h item h' E).
    unfold gotoNextTransaction, newTransactionsHeapItem.
    destruct (remaining item) as [|tx rest]; simpl.
    + etrans; [apply IH|]. rewrite length_app. simpl. lia.
    + etrans; [apply IH|]. rewrite length_app. unfold heapPush, heapTotal. simpl. lia.
Qed.

Lemma evictionPasses_fuel_irrelevant f1 : ∀ f2 cache h journal,
  heapTotal h < f1 → heapTotal h < f2 →
  evictionPasses f1 cache h journal = evictionPasses f2 cache h journal.
Proof.
  induction f1 as [|f1 IH]; intros f2 cache h journal H1 H2; [lia|].
  destruct f2 as [|f2]; [lia|]. simpl.
  destruct (isCapacityExceeded cache); [|done].
  pose proof (collect_total (Z.to_nat (NumItemsToPreemptivelyEvict (config cache))) h [])
    as Htot.
  destruct (collectTransactionsToEvict _ h []) as [[|tx txs] h']; [done|].
  simpl in Htot. apply IH; lia.
Qed.

(** The loop over the passes ends by itself: any fuel above [heapTotal] of
    the heap gives the result of [evictLeastLikelyToSelectTransactions]. *)
Lemma evictionPasses_fuel fuel cache h journal :
  heapTotal h < fuel →
  evictionPasses fuel cache h journal = evictionPasses (S (heapTotal h)) cache h journal.
Proof. intros H. apply evictionPasses_fuel_irrelevant; lia. Qed.

(** [passStates] lists the passes [evictionPasses] makes: the final cache is
    what the last pass leaves, and the journal has one entry per pass. *)
Lemma evictionPasses_passStates fuel : ∀ cache h journal,
  (evictionPasses fuel cache h journal).1
  = foldl (λ _ p, evictTransactions p.1 (collectedBy p.1 p.2)) cache (passStates fuel cache h)
  ∧ numEvictedByPass (evictionPasses fuel cache h journal).2
    = numEvictedByPass journal
      ++ ((λ p, length (collectedBy p.1 p.2)) <$> passStates fuel cache h).
Proof.
  induction fuel as [|fuel IH]; intros cache h journal; simpl.
  - by rewrite app_nil_r.
  - destruct (isCapacityExceeded cache); [|by rewrite app_nil_r].
    assert (collectedBy cache h
            = (collectTransactionsToEvict
                 (Z.to_nat (NumItemsToPreemptivelyEvict (config cache))) h []).1) as Hc by done.
    destruct (collectTransactionsToEvict _ h []) as [[|tx txs] h'] eqn:E;
      [by rewrite app_nil_r|].
    destruct (IH (evictTransactions cache (tx :: txs)) h'
                (recordPass journal (length (tx :: txs)))) as [H1 H2].
    rewrite H1, H2. cbn [foldl fmap list_fmap fst snd].
    rewrite Hc. split; [done|].
    cbn [recordPass numEvictedByPass]. by rewrite <- app_assoc.
Qed.

(** *** The per-sender lists stay ordered *)

Lemma senderListOrdered_nil s : senderListOrdered s [].
Proof. split; constructor. Qed.

Lemma senderListsOrdered_pool cache :
  senderListsOrdered cache
  ↔ ∀ s, senderListOrdered s (default [] (GetTransactionsPoolForSender cache s)).
Proof.
  unfold senderListsOrdered, GetTransactionsPoolForSender, txListBySenderMap.getListForSender.
  split.
  - intros H s.
    destruct (txListBySenderMap.backingMap (txListBySender cache) !! s) as [items|] eqn:E.
    + by apply (H s items).
    + apply senderListOrdered_nil.
  - intros H s items E. specialize (H s). by rewrite E in H.
Qed.

Lemma senderListOrdered_filter s (P : WrappedTransaction → Prop) `{∀ x, Decision (P x)} items :
  senderListOrdered s items → senderListOrdered s (filter P items).
Proof.
  intros [Hs Ho]. split.
  - apply Forall_forall. intros x [_ Hx]%list_elem_of_filter.
    by apply (proj1 (Forall_forall _ _) Hs).
  - unfold ascendingNonces in *. clear Hs.
    induction Ho as [|a l Hl IH Ha]; [constructor|].
    rewrite filter_cons. destruct (decide (P a)); [|done].
    constructor; [done|].
    apply Forall_forall. intros x [_ Hx]%list_elem_of_filter.
    by apply (proj1 (Forall_forall _ _) Ha).
Qed.

Lemma senderListOrdered_prefix s l1 l2 :
  senderListOrdered s (l1 ++ l2) → senderListOrdered s l1.
Proof.
  intros [Hs Ho]. split.
  - by apply Forall_app in Hs as [Hs _].
  - by apply StronglySorted_app_1_l in Ho.
Qed.

Lemma comesBefore_nonce a b :
  (if txListForSender.comesBefore a b
   then GetNonce a ≤ GetNonce b else GetNonce b ≤ GetNonce a)%N.
Proof.
  unfold txListForSender.comesBefore.
  destruct (N.ltb_spec (GetNonce a) (GetNonce b)); [lia|].
  destruct (N.ltb_spec (GetNonce b) (GetNonce a)); [lia|].
  destruct (GetGasPrice b <? GetGasPrice a)%N; [lia|].
  destruct (GetGasPrice a <? GetGasPrice b)%N; [lia|].
  destruct (String.ltb (TxHash a) (TxHash b)); lia.
Qed.

Lemma insertInOrder_ordered tx items :
  senderListOrdered (GetSndAddr tx) items →
  senderListOrdered (GetSndAddr tx) (txListForSender.insertInOrder tx items).
Proof.
  intros [Hs Ho]. split.
  - apply Forall_forall. intros x [-> | Hx]%insertInOrder_elem; [done|].
    by apply (proj1 (Forall_forall _ _) Hs).
  - unfold ascendingNonces in *. clear Hs.
    induction Ho as [|a l Hl IH Ha]; simpl; [repeat constructor|].
    pose proof (comesBefore_nonce tx a) as Hc.
    destruct (txListForSender.comesBefore tx a).
    + constructor; [by constructor|].
      constructor; [done|].
      apply Forall_forall. intros x Hx.
      pose proof (proj1 (Forall_forall _ _) Ha x Hx). simpl in *. lia.
    + constructor; [done|].
      apply Forall_forall. intros x [-> | Hx]%insertInOrder_elem; [done|].
      by apply (proj1 (Forall_forall _ _) Ha).
Qed.

Lemma list_AddTx_ordered c items tx :
  senderListOrdered (GetSndAddr tx) items →
  senderListOrdered (GetSndAddr tx) (txListForSender.AddTx c items tx).1.1.
Proof.
  intros Hi. unfold txListForSender.AddTx.
  destruct (txListForSender.isPresent tx items).
  - destruct (applySizeConstraints_spec c items) as (removed & Hl & _).
    destruct (txListForSender.applySizeConstraints c items) as [kept evicted]; simpl in *.
    rewrite Hl in Hi. by apply senderListOrdered_prefix in Hi.
  - pose proof (insertInOrder_ordered tx items Hi) as Hi'.
    destruct (applySizeConstraints_spec c (txListForSender.insertInOrder tx items))
      as (removed & Hl & _).
    destruct (txListForSender.applySizeConstraints c (txListForSender.insertInOrder tx items))
      as [kept evicted]; simpl in *.
    rewrite Hl in Hi'. by apply senderListOrdered_prefix in Hi'.
Qed.

Lemma evictTransactions_ordered cache txs :
  senderListsOrdered cache → senderListsOrdered (evictTransactions cache txs).
Proof.
  rewrite !senderListsOrdered_pool. intros H s.
  unfold GetTransactionsPoolForSender, txListBySenderMap.getListForSender, evictTransactions.
  cbn [txListBySender setTxByHash setTxListBySender].
  rewrite removeLowestToEvict_pool.
  destruct (lowestToEvictBySender txs !! s); [|apply H].
  apply senderListOrdered_filter, H.
Qed.

Lemma evictionPasses_ordered fuel : ∀ cache h journal,
  senderListsOrdered cache → senderListsOrdered (evictionPasses fuel cache h journal).1.
Proof.
  induction fuel as [|fuel IH]; intros cache h journal Hc; simpl; [done|].
  destruct (isCapacityExceeded cache); [|done].
  destruct (collectTransactionsToEvict _ h []) as [[|tx txs] h']; [done|].
  by apply IH, evictTransactions_ordered.
Qed.

Lemma doEviction_ordered cache :
  senderListsOrdered cache → senderListsOrdered (doEviction cache).1.
Proof.
  intros Hc. unfold doEviction.
  destruct (isEvictionInProgress cache); [done|].
  destruct (isCapacityExceeded cache) eqn:E; simpl; [|done].
  rewrite isCapacityExceeded_flag, E. simpl.
  unfold evictLeastLikelyToSelectTransactions.
  pose proof (evictionPasses_ordered
    (S (heapTotal (initialHeap (bunchesOf (setEvictionInProgress cache true)))))
    (setEvictionInProgress cache true)
    (initialHeap (bunchesOf (setEvictionInProgress cache true)))
    {| numEvicted := 0; numEvictedByPass := [] |} Hc) as H.
  by destruct (evictionPasses _ _ _ _) as [cache2 journal].
Qed.

Lemma AddTx_ordered cache tx :
  senderListsOrdered cache → senderListsOrdered (AddTx cache tx).1.
Proof.
  intros Hc. destruct tx as [tx|]; [|done].
  destruct (Tx tx) as [t|] eqn:Ht; [|unfold AddTx; by rewrite Ht].
  rewrite (AddTx_unfold cache tx t Ht). cbn [fst].
  assert (senderListsOrdered (evictBeforeAdd cache)) as Hc1.
  { unfold evictBeforeAdd. destruct (EvictionEnabled (config cache)); [|done].
    by apply doEviction_ordered. }
  revert Hc1. generalize (evictBeforeAdd cache) as cache1.
  generalize (precomputeFields (host cache) tx) as tx'.
  intros tx' cache1. rewrite !senderListsOrdered_pool. intros Hc1 s.
  unfold GetTransactionsPoolForSender, txListBySenderMap.getListForSender in *.
  cbn [txListBySender setTxByHash setTxListBySender].
  rewrite addTxReturnEvicted_spec. cbn [fst txListBySenderMap.backingMap].
  destruct (decide (s = GetSndAddr tx')) as [->|Hne].
  - rewrite lookup_insert_eq. cbn [default from_option id].
    apply list_AddTx_ordered, Hc1.
  - rewrite lookup_insert_ne by done. apply Hc1.
Qed.

Lemma RemoveTxByHash_ordered cache txHash :
  senderListsOrdered cache → senderListsOrdered (RemoveTxByHash cache txHash).1.
Proof.
  rewrite !senderListsOrdered_pool. intros Hc s.
  unfold GetTransactionsPoolForSender, txListBySenderMap.getListForSender, RemoveTxByHash in *.
  destruct (txByHashMap.removeTx (txByHash cache) txHash) as [byHash [tx|]]; [|apply Hc].
  pose proof (bySender_removeLowerOrEqual_spec (txListBySender cache) tx) as [_ Hpool].
  destruct (txListBySenderMap.removeTransactionsWithLowerOrEqualNonceReturnHashes
              (txListBySender cache) tx) as [bySender evicted].
  cbn [fst snd txListBySender setTxByHash setTxListBySender] in *.
  rewrite Hpool. destruct (decide (s = GetSndAddr tx)) as [->|?]; [|apply Hc].
  apply senderListOrdered_filter, Hc.
Qed.

(** Every state that additions and removals reach from a new cache has its
    per-sender lists keyed by sender and ascending by nonce. *)
Lemma reached_caches_ordered config host calls :
  senderListsOrdered (runCacheCalls (NewTxCache config host) calls).
Proof.
  assert (senderListsOrdered (NewTxCache config host)) as H0.
  { unfold senderListsOrdered, NewTxCache. cbn. apply map_Forall_empty. }
  revert H0. generalize (NewTxCache config host) as cache.
  induction calls as [|c calls IH]; intros cache Hc; simpl; [done|].
  apply IH. destruct c as [tx|txHash]; simpl.
  - by apply AddTx_ordered.
  - by apply RemoveTxByHash_ordered.
Qed.

Lemma passStates_first fuel cache h :
  isCapacityExceeded cache = true → collectedBy cache h ≠ [] →
  (cache, h) ∈ passStates (S fuel) cache h.
Proof.
  intros He Hc. simpl. rewrite He. unfold collectedBy in Hc.
  destruct (collectTransactionsToEvict _ h []) as [[|tx txs] h']; [done|].
  apply list_elem_of_here.
Qed.

(** C4.  In every pass of an eviction that starts on a cache whose
    per-sender lists are keyed by sender and ascend by nonce (as they do in
    every state additions and removals reach, [reached_caches_ordered]), and
    for every sender with a transaction among those the pass collects: the
    nonce recorded for the sender in [lowestToEvictBySender] is the nonce of
    one of its collected transactions and is not above the nonce of any of
    them, and the list of the sender after the pass is its list before the
    pass without the transactions of that nonce or higher. *)
Theorem lowest_nonce_recorded_per_sender cache :
  senderListsOrdered cache →
  ∀ c h, (c, h) ∈ passStatesOf cache →
    let transactionsToEvict := collectedBy c h in
    ∀ sender tx,
      tx ∈ transactionsToEvict → GetSndAddr tx = sender →
      ∃ nonce,
        lowestToEvictBySender transactionsToEvict !! sender = Some nonce
        ∧ (∃ tx', tx' ∈ transactionsToEvict ∧ GetSndAddr tx' = sender ∧ GetNonce tx' = nonce)
        ∧ (∀ tx', tx' ∈ transactionsToEvict → GetSndAddr tx' = sender →
                  (nonce ≤ GetNonce tx')%N)
        ∧ default [] (GetTransactionsPoolForSender
                        (evictTransactions c transactionsToEvict) sender)
          = filter (λ x, (GetNonce x < nonce)%N)
                   (default [] (GetTransactionsPoolForSender c sender)).
Proof.
  intros Hc c h Hin txs sender tx Htx Hs.
  pose proof (passStates_ordered _ cache _ (initialHeap_ordered cache Hc) c h Hin) as Hh.
  assert (StronglySorted laterNotHigher txs) as Hsorted.
  { apply (collect_ordered _ h [] Hh); [|constructor].
    by intros item t y _ ?%elem_of_nil. }
  pose proof (lowestToEvictBySender_spec txs Hsorted sender) as Hlow.
  destruct (lowestToEvictBySender txs !! sender) as [nonce|] eqn:E.
  - exists nonce. destruct Hlow as [Hex Hmin].
    split; [done|]. split; [done|]. split; [done|].
    unfold GetTransactionsPoolForSender, txListBySenderMap.getListForSender, evictTransactions.
    cbn [txListBySender setTxByHash setTxListBySender].
    by rewrite removeLowestToEvict_pool, E.
  - by destruct (Hlow tx Htx).
Qed.

Lemma lowest_nonce_recorded_per_sender_witness :
  let transactionsToEvict := collectedBy scenarioWorstSender (initialHeap (bunchesOf scenarioWorstSender)) in
  TxHash <$> transactionsToEvict = ["a3"; "a2"; "a1"]
  ∧ ∃ nonce,
      lowestToEvictBySender transactionsToEvict !! "alice" = Some nonce
      ∧ (∃ tx', tx' ∈ transactionsToEvict ∧ GetSndAddr tx' = "alice" ∧ GetNonce tx' = nonce)
      ∧ (∀ tx', tx' ∈ transactionsToEvict → GetSndAddr tx' = "alice" →
                (nonce ≤ GetNonce tx')%N)
      ∧ default [] (GetTransactionsPoolForSender
                      (evictTransactions scenarioWorstSender transactionsToEvict) "alice")
        = filter (λ x, (GetNonce x < nonce)%N)
                 (default [] (GetTransactionsPoolForSender scenarioWorstSender "alice")).
Proof.
  intros txs. split; [vm_compute; reflexivity|].
  refine (lowest_nonce_recorded_per_sender scenarioWorstSender _
            scenarioWorstSender (initialHeap (bunchesOf scenarioWorstSender)) _
            "alice" (precomputeFields testHost (createTx "a2" "alice" 2 1 128)) _ eq_refl).
  - apply (bool_decide_unpack _). vm_compute. exact I.
  - apply passStates_first; [vm_compute; reflexivity | vm_compute; discriminate].
  - apply (bool_decide_unpack _). vm_compute. exact I.
Defined.

(** C3, what the code does.  When a pass has collected
    [NumItemsToPreemptivelyEvict] transactions and the heap is not empty, the
    loop pops one more item and leaves the loop without pushing it back: the
    heap of the next pass lacks the cursor of that sender.  On a cache of
    four senders a, b, c, d with one transaction each (A, B, C of 100 bytes
    and prices 1, 2, 3; D of 1000 bytes and price 4) over a byte threshold of
    1000 with passes of one: the first pass collects A and drops the cursor
    of b, whose transaction B stays in the cache; the second collects C and
    drops the cursor of d; the third finds the heap empty.  The eviction
    ends with B and D in the cache and the capacity still exceeded. *)
Theorem pass_limit_drops_the_popped_cursor :
  (∀ h collected,
     collectTransactionsToEvict 0 h collected
     = (collected, match heapPop h with
                   | Some (_, h') => h'
                   | None => h
                   end))
  ∧ (let h0 := initialHeap (bunchesOf scenarioOversized) in
     let '(collected, h1) := collectTransactionsToEvict 1 h0 [] in
     let cache1 := evictTransactions scenarioOversized collected in
     isCapacityExceeded scenarioOversized = true
     ∧ NumItemsToPreemptivelyEvict (config scenarioOversized) = 1%Z
     ∧ heapSenders h0 ≡ₚ ["a"; "b"; "c"; "d"]
     ∧ TxHash <$> collected = ["A"]
     ∧ heapSenders h1 ≡ₚ ["c"; "d"]
     ∧ (TxHash <$> GetByTxHash cache1 "B") = Some "B"
     ∧ TxHash <$> default [] (GetTransactionsPoolForSender cache1 "b") = ["B"]
     ∧ isCapacityExceeded cache1 = true)
  ∧ (let '(cache', journal) := doEviction scenarioOversized in
     (numEvictedByPass <$> journal) = Some [1; 1]
     ∧ (map_to_list (txByHashMap.backingMap (txByHash cache'))).*1 ≡ₚ ["B"; "D"]
     ∧ PricePerGasUnit <$> GetByTxHash scenarioOversized "C" = Some 3%N
     ∧ PricePerGasUnit <$> GetByTxHash cache' "B" = Some 2%N
     ∧ NumBytes cache' = 1100%Z
     ∧ NumBytesThreshold (config cache') = 1000%Z
     ∧ isCapacityExceeded cache' = true).
Proof.
  split; [|split].
  - intros h collected. simpl. by destruct (heapPop h) as [[item h']|].
  - vm_compute. repeat split; try reflexivity;
      apply (bool_decide_unpack _); vm_compute; exact I.
  - vm_compute. repeat split; try reflexivity;
      apply (bool_decide_unpack _); vm_compute; exact I.
Qed.

(** * Further properties of the selection session wrapper *)

Lemma getAccountRecord_consumed_of_record w address :
  consumedBalance (getAccountRecord w address).1 = consumedBalanceOf w address.
Proof.
  unfold getAccountRecord, consumedBalanceOf.
  destruct (recordsByAddress w !! address) eqn:E; simpl; [done|].
  by destruct (GetAccountState (session w) address).
Qed.

(** The addresses [getAccountRecord] asks the session for: the given one,
    when it has no record yet. *)
Lemma getAccountRecord_calls w address :
  sessionCalls (getAccountRecord w address).2
  = sessionCalls w
    ++ (if decide (is_Some (recordsByAddress w !! address)) then [] else [address]).
Proof.
  unfold getAccountRecord.
  destruct (recordsByAddress w !! address) eqn:E; cbn [sessionCalls snd].
  - destruct (decide (is_Some (Some a))) as [_|Hn]; [by rewrite app_nil_r|].
    exfalso. apply Hn. eauto.
  - destruct (decide (is_Some (@None accountRecord))) as [[? ?]|_]; done.
Qed.

Lemma getAccountRecord_initial w address a r :
  recordsByAddress w !! a = Some r →
  recordsByAddress (getAccountRecord w address).2 !! a = Some r.
Proof.
  intros Ha. unfold getAccountRecord.
  destruct (recordsByAddress w !! address) eqn:E; simpl; [done|].
  destruct (decide (address = a)) as [->|Hne]; [congruence|].
  by rewrite lookup_insert_ne.
Qed.

Lemma addToConsumedBalance_initial w address v a r :
  recordsByAddress w !! a = Some r →
  ∃ r', recordsByAddress (addToConsumedBalance w address v) !! a = Some r'
        ∧ initialNonce r' = initialNonce r ∧ initialBalance r' = initialBalance r.
Proof.
  intros Ha. unfold addToConsumedBalance. simpl.
  destruct (decide (a = address)) as [->|Hne].
  - rewrite lookup_alter_eq, Ha. simpl. eauto.
  - rewrite lookup_alter_ne by done. eauto.
Qed.

(** A call on the wrapper keeps the initial nonce and the initial balance of
    every record there is. *)
Lemma runWrapperCall_initial w c a r :
  recordsByAddress w !! a = Some r →
  ∃ r', recordsByAddress (runWrapperCall w c) !! a = Some r'
        ∧ initialNonce r' = initialNonce r ∧ initialBalance r' = initialBalance r.
Proof.
  intros Ha. destruct c as [address|address|tx|tx]; simpl.
  - exists r. by rewrite (getAccountRecord_initial w address a r Ha).
  - unfold getNonce.
    pose proof (getAccountRecord_initial w address a r Ha) as H.
    destruct (getAccountRecord w address). simpl in *. eauto.
  - unfold accumulateConsumedBalance.
    pose proof (getAccountRecord_initial w (GetSndAddr tx) a r Ha) as H1.
    destruct (getAccountRecord w (GetSndAddr tx)) as [r1 w1]; simpl in H1.
    pose proof (getAccountRecord_initial w1 (FeePayer tx) a r H1) as H2.
    destruct (getAccountRecord w1 (FeePayer tx)) as [r2 w2]; simpl in H2.
    destruct (TransferredValue tx) as [tv|].
    + destruct (addToConsumedBalance_initial w2 (GetSndAddr tx) tv a r H2) as (r3 & H3 & Hn & Hb).
      destruct (Fee tx) as [fee|]; [|eauto].
      destruct (addToConsumedBalance_initial _ (FeePayer tx) fee a r3 H3) as (r4 & H4 & Hn' & Hb').
      exists r4. split; [done|]. split; congruence.
    + destruct (Fee tx) as [fee|]; [|eauto].
      apply addToConsumedBalance_initial. done.
  - unfold detectWillFeeExceedBalance. destruct (Fee tx); simpl; [|eauto].
    pose proof (getAccountRecord_initial w (FeePayer tx) a r Ha) as H.
    destruct (getAccountRecord w (FeePayer tx)). simpl in *. eauto.
Qed.

Lemma runWrapperCalls_initial cs : ∀ w a r,
  recordsByAddress w !! a = Some r →
  ∃ r', recordsByAddress (runWrapperCalls w cs) !! a = Some r'
        ∧ initialNonce r' = initialNonce r ∧ initialBalance r' = initialBalance r.
Proof.
  induction cs as [|c cs IH]; intros w a r Ha; simpl; [eauto|].
  destruct (runWrapperCall_initial w c a r Ha) as (r1 & H1 & Hn & Hb).
  destruct (IH _ a r1 H1) as (r2 & H2 & Hn' & Hb').
  exists r2. split; [done|]. split; congruence.
Qed.

(** X1.  [accumulateConsumedBalance] adds the transferred value to the
    consumed balance of the sender and the fee to that of the fee payer (both
    to the same record when the sender pays its own fee), a nil amount
    counting for nothing; the consumed balance of every other address stays.
    The session is asked only for those of the two addresses that have no
    record yet, the sender first. *)
Theorem accumulateConsumedBalance_charges_sender_and_fee_payer w tx :
  (∀ a, consumedBalanceOf (accumulateConsumedBalance w tx) a
        = (consumedBalanceOf w a
           + (if decide (a = GetSndAddr tx) then default 0 (TransferredValue tx) else 0)
           + (if decide (a = FeePayer tx) then default 0 (Fee tx) else 0))%Z)
  ∧ sessionCalls (accumulateConsumedBalance w tx)
    = sessionCalls w
      ++ (if decide (is_Some (recordsByAddress w !! GetSndAddr tx)) then [] else [GetSndAddr tx])
      ++ (if decide (is_Some (recordsByAddress w !! FeePayer tx)
                     ∨ FeePayer tx = GetSndAddr tx) then [] else [FeePayer tx]).
Proof.
  split; [intros a; apply accumulateConsumedBalance_consumed|].
  destruct (accumulateConsumedBalance_calls_records w tx) as (w1 & w2 & -> & -> & Hc & _).
  rewrite Hc, !getAccountRecord_calls, <- app_assoc. f_equal. f_equal.
  pose proof (getAccountRecord_stored w (GetSndAddr tx)) as Hst.
  destruct (decide (FeePayer tx = GetSndAddr tx)) as [Heq|Hne].
  - rewrite Heq. rewrite decide_True by (rewrite Hst; eauto).
    by rewrite decide_True by auto.
  - assert (is_Some (recordsByAddress (getAccountRecord w (GetSndAddr tx)).2 !! FeePayer tx)
            ↔ is_Some (recordsByAddress w !! FeePayer tx)) as Hiff.
    { unfold getAccountRecord.
      destruct (recordsByAddress w !! GetSndAddr tx); simpl; [done|].
      by rewrite lookup_insert_ne. }
    destruct (decide (is_Some (recordsByAddress w !! FeePayer tx))) as [Hs|Hn].
    + rewrite decide_True by (by apply Hiff). by rewrite decide_True by auto.
    + rewrite decide_False by (by rewrite Hiff). rewrite decide_False; [done|]. tauto.
Qed.

(** X2.  The nonce the wrapper answers for an address does not change during
    a selection: after the first [getNonce], whatever calls are made on the
    wrapper, [getNonce] answers the same, and the record of the address keeps
    its initial balance. *)
Theorem getNonce_is_stable w address calls :
  let w1 := (getNonce w address).2 in
  let w2 := runWrapperCalls w1 calls in
  (getNonce w2 address).1 = (getNonce w address).1
  ∧ initialBalance (getAccountRecord w2 address).1
    = initialBalance (getAccountRecord w address).1.
Proof.
  unfold getNonce.
  pose proof (getAccountRecord_stored w address) as Hst.
  destruct (getAccountRecord w address) as [r w1] eqn:E. cbn [fst snd] in *.
  destruct (runWrapperCalls_initial calls w1 address r Hst) as (r' & Hr' & Hn & Hb).
  rewrite (getAccountRecord_known _ _ _ Hr'). cbn [fst snd]. done.
Qed.

Lemma detectWillFeeExceedBalance_consumed w tx a :
  consumedBalanceOf (detectWillFeeExceedBalance w tx).2 a = consumedBalanceOf w a.
Proof.
  unfold detectWillFeeExceedBalance.
  destruct (Fee tx) as [fee|]; [|done].
  pose proof (getAccountRecord_consumed w (FeePayer tx) a) as Hc.
  by destruct (getAccountRecord w (FeePayer tx)) as [r w'].
Qed.

(** X3.  The balance gate only reads: [detectWillFeeExceedBalance] changes no
    consumed balance, and asked again at once for the same transaction it
    gives the same answer and leaves the wrapper as it is. *)
Theorem detectWillFeeExceedBalance_only_reads w tx :
  let '(willExceed, w') := detectWillFeeExceedBalance w tx in
  (∀ a, consumedBalanceOf w' a = consumedBalanceOf w a)
  ∧ detectWillFeeExceedBalance w' tx = (willExceed, w').
Proof.
  unfold detectWillFeeExceedBalance.
  destruct (Fee tx) as [fee|]; [|done].
  pose proof (getAccountRecord_consumed w (FeePayer tx)) as Hc.
  pose proof (getAccountRecord_stored w (FeePayer tx)) as Hst.
  destruct (getAccountRecord w (FeePayer tx)) as [r w'] eqn:E. cbn [fst snd] in *.
  split; [done|].
  by rewrite (getAccountRecord_known _ _ _ Hst).
Qed.

(** X4.  A transaction that passes the balance gate and is then accumulated
    leaves the consumed balance of its fee payer within the initial balance,
    up to the value the transaction itself transfers when the fee payer is
    its sender. *)
Theorem passing_the_gate_keeps_fee_payer_within_balance w tx fee :
  Fee tx = Some fee →
  (detectWillFeeExceedBalance w tx).1 = false →
  let w' := accumulateConsumedBalance (detectWillFeeExceedBalance w tx).2 tx in
  (consumedBalanceOf w' (FeePayer tx)
   ≤ initialBalance (getAccountRecord w (FeePayer tx)).1
     + (if decide (FeePayer tx = GetSndAddr tx)
        then default 0 (TransferredValue tx) else 0))%Z.
Proof.
  intros Hf Hgate w'. subst w'.
  rewrite accumulateConsumedBalance_consumed, Hf. cbn [default from_option id].
  rewrite detectWillFeeExceedBalance_consumed.
  revert Hgate. unfold detectWillFeeExceedBalance. rewrite Hf.
  pose proof (getAccountRecord_consumed_of_record w (FeePayer tx)) as Hc.
  destruct (getAccountRecord w (FeePayer tx)) as [r w1]. cbn [fst snd] in *.
  intros Hgate.
  apply Z.ltb_ge in Hgate.
  rewrite (decide_True (P := FeePayer tx = FeePayer tx)) by done.
  destruct (decide (FeePayer tx = GetSndAddr tx)); lia.
Qed.

Lemma passing_the_gate_keeps_fee_payer_within_balance_witness :
  let w := newSelectionSessionWrapper aliceSession in
  let tx := txWithFee "h1" "alice" "alice" 0 (Some 0%Z) (Some 60%Z) in
  (consumedBalanceOf
     (accumulateConsumedBalance (detectWillFeeExceedBalance w tx).2 tx) "alice"
   ≤ 100 + 0)%Z.
Proof.
  intros w tx.
  exact (passing_the_gate_keeps_fee_payer_within_balance w tx 60 eq_refl eq_refl).
Defined.

(** * Further properties of the eviction *)

Lemma evictTransactions_removes_only cache txs :
  (∀ h x, GetByTxHash (evictTransactions cache txs) h = Some x → GetByTxHash cache h = Some x)
  ∧ (∀ s, default [] (GetTransactionsPoolForSender (evictTransactions cache txs) s)
          `sublist_of` default [] (GetTransactionsPoolForSender cache s)).
Proof.
  unfold GetByTxHash, txByHashMap.getTx, GetTransactionsPoolForSender,
    txListBySenderMap.getListForSender, evictTransactions.
  cbn [txByHash txListBySender setTxByHash setTxListBySender]. split.
  - intros h x. rewrite RemoveTxsBulk_lookup. by destruct (decide (h ∈ TxHash <$> txs)).
  - intros s. rewrite removeLowestToEvict_pool.
    destruct (lowestToEvictBySender txs !! s); [apply sublist_filter | done].
Qed.

Lemma evictionPasses_removes_only fuel : ∀ cache h journal,
  let cache' := (evictionPasses fuel cache h journal).1 in
  isEvictionInProgress cache' = isEvictionInProgress cache
  ∧ (∀ k x, GetByTxHash cache' k = Some x → GetByTxHash cache k = Some x)
  ∧ (∀ s, default [] (GetTransactionsPoolForSender cache' s)
          `sublist_of` default [] (GetTransactionsPoolForSender cache s)).
Proof.
  induction fuel as [|fuel IH]; intros cache h journal; simpl; [done|].
  destruct (isCapacityExceeded cache); [|done].
  destruct (collectTransactionsToEvict _ h []) as [[|tx txs] h']; [done|].
  destruct (IH (evictTransactions cache (tx :: txs)) h'
              (recordPass journal (length (tx :: txs)))) as (Hf & Hh & Hs).
  destruct (evictTransactions_removes_only cache (tx :: txs)) as [Hh' Hs'].
  split; [by rewrite Hf|]. split.
  - intros k x Hk. by apply Hh', Hh.
  - intros s. etrans; [apply Hs | apply Hs'].
Qed.

(** X5.  [doEviction] only takes away.  It leaves configuration, host and
    the in-progress flag as it found them; every transaction the map by hash
    answers for afterwards it answered for before, under the same hash; and
    the list of every sender afterwards is a sublist of its list before (no
    sender gains a transaction, none is reordered). *)
Theorem doEviction_only_removes cache :
  let cache' := (doEviction cache).1 in
  config cache' = config cache
  ∧ host cache' = host cache
  ∧ isEvictionInProgress cache' = isEvictionInProgress cache
  ∧ (∀ h x, GetByTxHash cache' h = Some x → GetByTxHash cache h = Some x)
  ∧ (∀ s, default [] (GetTransactionsPoolForSender cache' s)
          `sublist_of` default [] (GetTransactionsPoolForSender cache s)).
Proof.
  intros cache'. destruct (doEviction_config_host cache) as [Hc Hh].
  split; [done|]. split; [done|]. subst cache'. unfold doEviction.
  destruct (isEvictionInProgress cache) eqn:Hflag;
    [simpl; split; [done|]; split; [done|]; reflexivity|].
  destruct (isCapacityExceeded cache) eqn:E; simpl;
    [|split; [done|]; split; [done|]; reflexivity].
  rewrite isCapacityExceeded_flag, E. simpl.
  unfold evictLeastLikelyToSelectTransactions.
  pose proof (evictionPasses_removes_only
    (S (heapTotal (initialHeap (bunchesOf (setEvictionInProgress cache true)))))
    (setEvictionInProgress cache true)
    (initialHeap (bunchesOf (setEvictionInProgress cache true)))
    {| numEvicted := 0; numEvictedByPass := [] |}) as (_ & Hbh & Hbs).
  destruct (evictionPasses _ _ _ _) as [cache2 journal]. simpl in *. done.
Qed.

Lemma doEviction_only_removes_witness :
  GetByTxHash (doEviction scenarioOversized).1 "B" = GetByTxHash scenarioOversized "B".
Proof.
  destruct (GetByTxHash (doEviction scenarioOversized).1 "B") as [x|] eqn:E.
  - symmetry. exact (proj1 (proj2 (proj2 (proj2 (doEviction_only_removes scenarioOversized))))
                       "B" x E).
  - vm_compute in E. discriminate E.
Defined.

(** What one run of the inner loop collects is at most [k] transactions. *)
Lemma collect_at_most k : ∀ h collected,
  (length (collectTransactionsToEvict k h collected).1 ≤ length collected + k)%nat.
Proof.
  induction k as [|k IH]; intros h collected; simpl.
  - destruct (heapPop h) as [[item h']|]; simpl; lia.
  - destruct (heapPop h) as [[item h']|]; simpl; [|lia].
    destruct (gotoNextTransaction item);
      (etrans; [apply IH|]); rewrite length_app; simpl; lia.
Qed.

Lemma evictionPasses_journal fuel : ∀ cache h journal,
  ∃ passes,
    numEvictedByPass (evictionPasses fuel cache h journal).2
    = numEvictedByPass journal ++ passes
    ∧ numEvicted (evictionPasses fuel cache h journal).2
      = (numEvicted journal + sum_list passes)%nat
    ∧ Forall (λ n, (1 ≤ n ≤ Z.to_nat (NumItemsToPreemptivelyEvict (config cache)))%nat) passes
    ∧ (sum_list passes ≤ heapTotal h)%nat.
Proof.
  induction fuel as [|fuel IH]; intros cache h journal; simpl.
  - exists []. rewrite app_nil_r. cbn. split; [done|]. split; [lia|]. split; [constructor | lia].
  - destruct (isCapacityExceeded cache);
      [|exists []; rewrite app_nil_r; cbn; split; [done|]; split; [lia|]; split; [constructor | lia]].
    pose proof (collect_at_most (Z.to_nat (NumItemsToPreemptivelyEvict (config cache))) h [])
      as Hmost.
    pose proof (collect_total (Z.to_nat (NumItemsToPreemptivelyEvict (config cache))) h [])
      as Htot.
    destruct (collectTransactionsToEvict _ h []) as [[|tx txs] h'];
      [exists []; rewrite app_nil_r; cbn; split; [done|]; split; [lia|]; split; [constructor | lia]|].
    destruct (IH (evictTransactions cache (tx :: txs)) h'
                (recordPass journal (length (tx :: txs))))
      as (passes & Hp & Hn & Hb & Hs).
    exists (length (tx :: txs) :: passes).
    rewrite Hp, Hn.
    assert (config (evictTransactions cache (tx :: txs)) = config cache) as Hc by done.
    rewrite Hc in Hb. simpl in *.
    split; [by rewrite <- app_assoc|]. split; [lia|]. split.
    + constructor; [lia | done].
    + lia.
Qed.

Lemma heapTotal_initialHeap_from bunches : ∀ h,
  heapTotal (foldl (λ h bunch, match newTransactionsHeapItem bunch with
                               | Some item => heapPush h item
                               | None => h
                               end) h bunches)
  = (heapTotal h + sum_list (length <$> bunches))%nat.
Proof.
  induction bunches as [|bunch bunches IH]; intros h; [simpl; lia|].
  cbn [foldl]. rewrite IH, fmap_cons.
  change (sum_list (length bunch :: (length <$> bunches)))
    with (length bunch + sum_list (length <$> bunches))%nat.
  destruct bunch as [|tx rest]; cbn [newTransactionsHeapItem length]; [lia|].
  unfold heapPush.
  change (heapTotal ({| currentTransaction := tx; remaining := rest |} :: h))
    with (S (length rest) + heapTotal h)%nat.
  lia.
Qed.

Lemma heapTotal_initialHeap cache :
  heapTotal (initialHeap (bunchesOf cache))
  = sum_list (length <$> txListBySenderMap.getSenders (txListBySender cache)).
Proof.
  unfold initialHeap. rewrite heapTotal_initialHeap_from. simpl.
  unfold bunchesOf. rewrite <- list_fmap_compose. f_equal.
  apply list_fmap_ext. intros i items _. simpl.
  unfold txListForSender.getTxsReversed. apply length_rev.
Qed.

(** X6.  The journal [doEviction] returns has one entry per pass; every entry
    is at least one and at most NumItemsToPreemptivelyEvict, [numEvicted] is
    their sum, and that sum is not above the number of transactions the
    per-sender lists held when the eviction started. *)
Theorem doEviction_journal_counts cache journal :
  (doEviction cache).2 = Some journal →
  Forall (λ n, (1 ≤ n ≤ Z.to_nat (NumItemsToPreemptivelyEvict (config cache)))%nat)
         (numEvictedByPass journal)
  ∧ numEvicted journal = sum_list (numEvictedByPass journal)
  ∧ (numEvicted journal
     ≤ sum_list (length <$> txListBySenderMap.getSenders (txListBySender cache)))%nat.
Proof.
  unfold doEviction.
  destruct (isEvictionInProgress cache); [done|].
  destruct (isCapacityExceeded cache) eqn:E; simpl; [|done].
  rewrite isCapacityExceeded_flag, E. simpl.
  unfold evictLeastLikelyToSelectTransactions.
  destruct (evictionPasses_journal
    (S (heapTotal (initialHeap (bunchesOf (setEvictionInProgress cache true)))))
    (setEvictionInProgress cache true)
    (initialHeap (bunchesOf (setEvictionInProgress cache true)))
    {| numEvicted := 0; numEvictedByPass := [] |}) as (passes & Hp & Hn & Hb & Hs).
  destruct (evictionPasses _ _ _ _) as [cache2 j]. simpl in *.
  intros [= <-]. rewrite Hp, Hn. split; [done|]. split; [done|].
  rewrite heapTotal_initialHeap in Hs. exact Hs.
Qed.

Lemma doEviction_journal_counts_witness :
  let journal := {| numEvicted := 2; numEvictedByPass := [1; 1] |} in
  (doEviction scenarioOversized).2 = Some journal
  ∧ Forall (λ n, (1 ≤ n ≤ Z.to_nat (NumItemsToPreemptivelyEvict
                                       (config scenarioOversized)))%nat)
           (numEvictedByPass journal)
  ∧ numEvicted journal = sum_list (numEvictedByPass journal)
  ∧ (numEvicted journal
     ≤ sum_list (length <$> txListBySenderMap.getSenders
                              (txListBySender scenarioOversized)))%nat.
Proof.
  intros journal.
  assert ((doEviction scenarioOversized).2 = Some journal) as H
    by (vm_compute; reflexivity).
  split; [exact H|].
  exact (doEviction_journal_counts scenarioOversized journal H).
Defined.

(** X7.  In every pass of an eviction that starts on a cache whose per-sender
    lists are keyed by sender and ascend by nonce, each transaction the pass
    collects is gone after the pass: the map by hash no longer answers for
    its hash and the list of its sender no longer holds it. *)
Theorem collected_transactions_leave_both_maps cache :
  senderListsOrdered cache →
  ∀ c h, (c, h) ∈ passStatesOf cache →
    ∀ tx, tx ∈ collectedBy c h →
      let c' := evictTransactions c (collectedBy c h) in
      GetByTxHash c' (TxHash tx) = None
      ∧ tx ∉ default [] (GetTransactionsPoolForSender c' (GetSndAddr tx)).
Proof.
  intros Hc c h Hin tx Htx c'. subst c'.
  unfold GetByTxHash, txByHashMap.getTx, GetTransactionsPoolForSender,
    txListBySenderMap.getListForSender, evictTransactions.
  cbn [txByHash txListBySender setTxByHash setTxListBySender]. split.
  - rewrite RemoveTxsBulk_lookup. rewrite decide_True; [done|].
    by apply list_elem_of_fmap_2.
  - pose proof (passStates_ordered _ cache _ (initialHeap_ordered cache Hc) c h Hin) as Hh.
    assert (StronglySorted laterNotHigher (collectedBy c h)) as Hsorted.
    { apply (collect_ordered _ h [] Hh); [|constructor].
      by intros item t y _ ?%elem_of_nil. }
    pose proof (lowestToEvictBySender_spec _ Hsorted (GetSndAddr tx)) as Hlow.
    rewrite removeLowestToEvict_pool.
    destruct (lowestToEvictBySender (collectedBy c h) !! GetSndAddr tx) as [nonce|].
    + destruct Hlow as [_ Hmin]. specialize (Hmin tx Htx eq_refl).
      intros [Hlt _]%list_elem_of_filter. lia.
    + by destruct (Hlow tx Htx).
Qed.

Lemma collected_transactions_leave_both_maps_witness :
  let tx := precomputeFields testHost (createTx "a2" "alice" 2 1 128) in
  let c' := evictTransactions scenarioWorstSender
              (collectedBy scenarioWorstSender (initialHeap (bunchesOf scenarioWorstSender))) in
  GetByTxHash c' "a2" = None
  ∧ tx ∉ default [] (GetTransactionsPoolForSender c' "alice").
Proof.
  intros tx c'.
  refine (collected_transactions_leave_both_maps scenarioWorstSender _
            scenarioWorstSender (initialHeap (bunchesOf scenarioWorstSender)) _ tx _).
  - apply (bool_decide_unpack _). vm_compute. exact I.
  - apply passStates_first; [vm_compute; reflexivity | vm_compute; discriminate].
  - apply (bool_decide_unpack _). vm_compute. exact I.
Defined.

(** The inner loop never drops what is already collected. *)
Lemma collect_nothing k : ∀ h collected,
  (collectTransactionsToEvict k h collected).1 = [] → collected = [].
Proof.
  induction k as [|k IH]; intros h collected; simpl.
  - by destruct (heapPop h) as [[? ?]|].
  - destruct (heapPop h) as [[item h']|]; [|done].
    destruct (gotoNextTransaction item); intros H%IH; by destruct collected.
Qed.

(** With a limit of at least one, a pass collects nothing only from an empty
    heap. *)
Lemma collect_nothing_empty_heap k h :
  (collectTransactionsToEvict (S k) h []).1 = [] → h = [].
Proof.
  simpl. destruct (heapPop h) as [[item h']|] eqn:Ep; [|intros _; by apply heapPop_None].
  destruct (gotoNextTransaction item); by intros H%collect_nothing.
Qed.

(** When the fuel is above [heapTotal] of the heap, the loop over the passes
    stops because the capacity is no longer exceeded or because the heap,
    asked for the next pass, gives nothing. *)
Lemma evictionPasses_stops fuel : ∀ cache h journal,
  heapTotal h < fuel →
  let cache' := (evictionPasses fuel cache h journal).1 in
  let h' := evictionPassesHeap fuel cache h in
  isCapacityExceeded cache' = false
  ∨ (collectTransactionsToEvict
       (Z.to_nat (NumItemsToPreemptivelyEvict (config cache'))) h' []).1 = [].
Proof.
  induction fuel as [|fuel IH]; intros cache h journal Hfuel; [lia|]. simpl.
  destruct (isCapacityExceeded cache) eqn:E; [|by left].
  pose proof (collect_total (Z.to_nat (NumItemsToPreemptivelyEvict (config cache))) h [])
    as Htot.
  destruct (collectTransactionsToEvict _ h []) as [[|tx txs] h1] eqn:Ecol.
  - right. simpl.
    destruct (Z.to_nat (NumItemsToPreemptivelyEvict (config cache))) as [|k].
    + simpl in Ecol. destruct (heapPop h) as [[item h2]|] eqn:Ep.
      * injection Ecol as <-. simpl. by destruct (heapPop h2) as [[? ?]|].
      * injection Ecol as <-. simpl. by rewrite Ep.
    + assert (h = []) as ->
        by (apply (collect_nothing_empty_heap k); by rewrite Ecol).
      simpl in Ecol. by injection Ecol as <-.
  - simpl in Htot. apply IH. lia.
Qed.

(** X8.  The eviction ends by itself.  When [doEviction] has run its passes
    and the capacity is still exceeded, the heap has nothing left to give: a
    further pass would collect no transaction (with
    NumItemsToPreemptivelyEvict at least one, the heap is empty). *)
Theorem eviction_stops_with_capacity_or_empty_heap cache :
  let cache1 := setEvictionInProgress cache true in
  let h := initialHeap (bunchesOf cache1) in
  let cache' := (evictLeastLikelyToSelectTransactions cache1).1 in
  let h' := evictionPassesHeap (S (heapTotal h)) cache1 h in
  isCapacityExceeded cache' = true →
  collectedBy cache' h' = []
  ∧ ((1 ≤ NumItemsToPreemptivelyEvict (config cache))%Z → h' = []).
Proof.
  intros cache1 h cache' h' Hex.
  pose proof (evictionPasses_stops (S (heapTotal h)) cache1 h
                {| numEvicted := 0; numEvictedByPass := [] |}) as Hstop.
  destruct Hstop as [Hn | He]; [lia| |].
  { subst cache'. unfold evictLeastLikelyToSelectTransactions in Hex. fold h in Hex.
    congruence. }
  fold h' in He.
  assert (collectedBy cache' h' = []) as Hcol by exact He.
  split; [done|]. intros HN.
  unfold collectedBy in Hcol.
  assert (config cache' = config cache) as Hcfg.
  { subst cache'. unfold evictLeastLikelyToSelectTransactions.
    by destruct (evictionPasses_config_host (S (heapTotal (initialHeap (bunchesOf cache1))))
                   cache1 (initialHeap (bunchesOf cache1))
                   {| numEvicted := 0; numEvictedByPass := [] |}) as [-> _]. }
  rewrite Hcfg in Hcol.
  destruct (Z.to_nat (NumItemsToPreemptivelyEvict (config cache))) as [|k] eqn:Ek; [lia|].
  by apply (collect_nothing_empty_heap k).
Qed.

Lemma eviction_stops_with_capacity_or_empty_heap_witness :
  let cache1 := setEvictionInProgress scenarioOversized true in
  let h := initialHeap (bunchesOf cache1) in
  evictionPassesHeap (S (heapTotal h)) cache1 h = [].
Proof.
  intros cache1 h.
  refine (proj2 (eviction_stops_with_capacity_or_empty_heap scenarioOversized _) _).
  - vm_compute. reflexivity.
  - vm_compute. discriminate.
Defined.

(** * Further properties of additions and removals *)

Lemma insertInOrder_Permutation tx items :
  txListForSender.insertInOrder tx items ≡ₚ tx :: items.
Proof.
  induction items as [|x items IH]; simpl; [done|].
  destruct (txListForSender.comesBefore tx x); [done|].
  rewrite IH. apply perm_swap.
Qed.

Lemma totalBytes_Permutation l1 l2 :
  l1 ≡ₚ l2 → txListForSender.totalBytes l1 = txListForSender.totalBytes l2.
Proof.
  induction 1 as [|x l1 l2 _ IH|x y l|l1 l2 l3 _ IH1 _ IH2];
    unfold txListForSender.totalBytes in *; simpl in *; lia.
Qed.

Lemma list_isCapacityExceeded_Permutation c l1 l2 :
  l1 ≡ₚ l2 →
  txListForSender.isCapacityExceeded c l1 = txListForSender.isCapacityExceeded c l2.
Proof.
  intros Hp. unfold txListForSender.isCapacityExceeded, txListForSender.countTx.
  by rewrite (totalBytes_Permutation _ _ Hp), (Permutation_length Hp).
Qed.

(** With room in the list, [AddTx] on the list inserts and evicts nothing. *)
Lemma list_AddTx_room c items tx :
  txListForSender.isCapacityExceeded c items = false →
  txListForSender.isCapacityExceeded c (tx :: items) = false →
  txListForSender.AddTx c items tx
  = (if txListForSender.isPresent tx items then items
     else txListForSender.insertInOrder tx items,
     negb (txListForSender.isPresent tx items), []).
Proof.
  intros H1 H2. unfold txListForSender.AddTx.
  destruct (txListForSender.isPresent tx items).
  - by rewrite applySizeConstraints_fixed by auto.
  - rewrite applySizeConstraints_fixed; [done|]. right.
    by rewrite (list_isCapacityExceeded_Permutation _ _ _ (insertInOrder_Permutation tx items)).
Qed.

Lemma filter_above_insertInOrder tx items :
  filter (λ x, (GetNonce tx < GetNonce x)%N) (txListForSender.insertInOrder tx items)
  = filter (λ x, (GetNonce tx < GetNonce x)%N) items.
Proof.
  induction items as [|y items IH]; simpl.
  - rewrite filter_cons. rewrite decide_False by lia. done.
  - destruct (txListForSender.comesBefore tx y).
    + rewrite (filter_cons _ tx). by rewrite decide_False by lia.
    + rewrite !(filter_cons _ y), IH. done.
Qed.

(** X9.  Adding with room.  When no eviction runs (it is disabled, or the
    capacity is not exceeded) and the list of the sender stays within its
    limits with the new transaction, [AddTx] of a transaction with a handler
    changes nothing but this: the hash answers for the transaction (for the
    one that was already stored under the hash, if there was one); a
    transaction of that nonce and hash being absent from the list of the
    sender, the list gains the transaction and nothing else; the other hashes
    and the lists of the other senders are as before. *)
Theorem AddTx_with_room cache tx t :
  Tx tx = Some t →
  EvictionEnabled (config cache) = false ∨ isCapacityExceeded cache = false →
  let tx' := precomputeFields (host cache) tx in
  let sender := GetSndAddr tx' in
  let items := default [] (GetTransactionsPoolForSender cache sender) in
  let limits := txListBySenderMap.constraints (txListBySender cache) in
  txListForSender.isCapacityExceeded limits items = false →
  txListForSender.isCapacityExceeded limits (tx' :: items) = false →
  let cache' := (AddTx cache (Some tx)).1 in
  let items' := default [] (GetTransactionsPoolForSender cache' sender) in
  GetByTxHash cache' (TxHash tx') = Some (default tx' (GetByTxHash cache (TxHash tx')))
  ∧ (∀ h, h ≠ TxHash tx' → GetByTxHash cache' h = GetByTxHash cache h)
  ∧ txListForSender.isPresent tx' items' = true
  ∧ (if txListForSender.isPresent tx' items then items' = items
     else tx' ∈ items' ∧ items' ≡ₚ tx' :: items)
  ∧ (∀ s, s ≠ sender →
          GetTransactionsPoolForSender cache' s = GetTransactionsPoolForSender cache s).
Proof.
  intros Ht Hquiet tx' sender items limits Hroom1 Hroom2 cache' items'.
  subst cache' items'. rewrite (AddTx_unfold cache tx t Ht). cbv zeta. fold tx'.
  rewrite (evictBeforeAdd_config cache Hquiet).
  rewrite addTxReturnEvicted_spec. cbn [fst snd].
  unfold GetTransactionsPoolForSender, txListBySenderMap.getListForSender,
    GetByTxHash, txByHashMap.getTx in *.
  cbn [txByHash txListBySender setTxByHash setTxListBySender txListBySenderMap.backingMap].
  fold sender. fold items. fold limits.
  rewrite (list_AddTx_room limits items tx' Hroom1 Hroom2). cbn [fst snd].
  rewrite lookup_insert_eq. cbn [default from_option id].
  split; [|split; [|split; [|split]]].
  - rewrite addTx_lookup.
    destruct (txByHashMap.backingMap (txByHash cache) !! TxHash tx'); [done|].
    by rewrite decide_True.
  - intros h Hne. rewrite addTx_lookup.
    destruct (txByHashMap.backingMap (txByHash cache) !! h); [done|].
    by rewrite decide_False.
  - destruct (txListForSender.isPresent tx' items) eqn:Hp; [done|].
    apply isPresent_true. exists tx'. split; [|done]. apply insertInOrder_elem. by left.
  - destruct (txListForSender.isPresent tx' items) eqn:Hp; [done|].
    split; [apply insertInOrder_elem; by left | apply insertInOrder_Permutation].
  - intros s Hne. by rewrite lookup_insert_ne.
Qed.

Lemma AddTx_with_room_witness :
  let tx := createTx "hash-4" "alice" 4 1 128 in
  let cache' := (AddTx scenarioS7 (Some tx)).1 in
  GetByTxHash cache' "hash-4" = Some (precomputeFields testHost tx)
  ∧ GetTransactionsPoolForSender cache' "bob" = GetTransactionsPoolForSender scenarioS7 "bob".
Proof.
  intros tx cache'.
  assert (EvictionEnabled (config scenarioS7) = false ∨ isCapacityExceeded scenarioS7 = false)
    as Hquiet by (left; reflexivity).
  pose proof (AddTx_with_room scenarioS7 tx _ eq_refl Hquiet) as H.
  cbv zeta in H.
  destruct H as (Hget & _ & _ & _ & Hothers);
    [vm_compute; reflexivity | vm_compute; reflexivity |].
  split.
  - etrans; [exact Hget|]. vm_compute. reflexivity.
  - apply Hothers. vm_compute. discriminate.
Defined.

(** X10.  Adding and removing again.  Under the conditions of X9 and with a
    hash the cache did not know, [RemoveTxByHash] of the hash just added
    answers [true]; afterwards the hash is unknown again and the list of the
    sender is its list before the addition without the transactions of the
    nonce of the added transaction or lower. *)
Theorem AddTx_then_RemoveTxByHash cache tx t :
  Tx tx = Some t →
  EvictionEnabled (config cache) = false ∨ isCapacityExceeded cache = false →
  let tx' := precomputeFields (host cache) tx in
  let sender := GetSndAddr tx' in
  let items := default [] (GetTransactionsPoolForSender cache sender) in
  let limits := txListBySenderMap.constraints (txListBySender cache) in
  txListForSender.isCapacityExceeded limits items = false →
  txListForSender.isCapacityExceeded limits (tx' :: items) = false →
  GetByTxHash cache (TxHash tx') = None →
  txListForSender.isPresent tx' items = false →
  let cache1 := (AddTx cache (Some tx)).1 in
  let '(cache2, removed) := RemoveTxByHash cache1 (TxHash tx') in
  removed = true
  ∧ GetByTxHash cache2 (TxHash tx') = None
  ∧ default [] (GetTransactionsPoolForSender cache2 sender)
    = filter (λ x, (GetNonce tx' < GetNonce x)%N) items.
Proof.
  intros Ht Hquiet tx' sender items limits Hroom1 Hroom2 Hnew Habsent cache1.
  subst cache1. rewrite (AddTx_unfold cache tx t Ht). cbv zeta. fold tx'.
  rewrite (evictBeforeAdd_config cache Hquiet).
  rewrite addTxReturnEvicted_spec. cbn [fst snd].
  unfold GetTransactionsPoolForSender, txListBySenderMap.getListForSender,
    GetByTxHash, txByHashMap.getTx in *.
  fold sender. fold items. fold limits.
  rewrite (list_AddTx_room limits items tx' Hroom1 Hroom2), Habsent. cbn [fst snd negb].
  set (byHash1 := (txByHashMap.addTx (txByHash cache) tx').1).
  set (bySender1 := {| txListBySenderMap.backingMap := _ |}).
  assert (txByHashMap.backingMap byHash1 !! TxHash tx' = Some tx') as Hfound.
  { subst byHash1. rewrite addTx_lookup, Hnew. by rewrite decide_True. }
  unfold RemoveTxByHash. cbn [txByHash txListBySender setTxByHash setTxListBySender].
  pose proof (removeTx_lookup byHash1 (TxHash tx')) as Hrm.
  pose proof (removeTx_found byHash1 (TxHash tx')) as Hfd. rewrite Hfound in Hfd.
  destruct (txByHashMap.removeTx byHash1 (TxHash tx')) as [byHash2 found].
  cbn [fst snd] in Hrm, Hfd. subst found.
  pose proof (bySender_removeLowerOrEqual_spec bySender1 tx') as [Hev Hpool].
  destruct (txListBySenderMap.removeTransactionsWithLowerOrEqualNonceReturnHashes
              bySender1 tx') as [bySender2 evicted].
  cbn [fst snd txByHash txListBySender setTxByHash setTxListBySender] in *.
  split; [done|]. split.
  - rewrite RemoveTxsBulk_nil_or, Hrm.
    destruct (decide (TxHash tx' ∈ evicted)); [done|]. by rewrite decide_True.
  - rewrite Hpool. fold sender. rewrite decide_True by done.
    subst bySender1. cbn [txListBySenderMap.backingMap].
    rewrite lookup_insert_eq. cbn [default from_option id].
    apply filter_above_insertInOrder.
Qed.

Lemma AddTx_then_RemoveTxByHash_witness :
  let tx := createTx "hash-4" "alice" 4 1 128 in
  let cache1 := (AddTx scenarioS7 (Some tx)).1 in
  (RemoveTxByHash cache1 "hash-4").2 = true
  ∧ GetByTxHash (RemoveTxByHash cache1 "hash-4").1 "hash-4" = None.
Proof.
  intros tx cache1.
  assert (EvictionEnabled (config scenarioS7) = false ∨ isCapacityExceeded scenarioS7 = false)
    as Hquiet by (left; reflexivity).
  pose proof (AddTx_then_RemoveTxByHash scenarioS7 tx _ eq_refl Hquiet) as H.
  cbv zeta in H.
  assert (TxHash (precomputeFields (host scenarioS7) tx) = "hash-4") as Hh by reflexivity.
  rewrite Hh in H. fold cache1 in H.
  destruct (RemoveTxByHash cache1 "hash-4") as [cache2 removed].
  destruct H as (Hr & Hg & _); [vm_compute; reflexivity..|].
  by split.
Defined.

(** X11.  Removing twice.  After [RemoveTxByHash] of a hash, whatever the
    first call answered, a second call for the same hash answers [false] and
    returns the state unchanged. *)
Theorem RemoveTxByHash_twice cache txHash :
  let cache1 := (RemoveTxByHash cache txHash).1 in
  GetByTxHash cache1 txHash = None
  ∧ RemoveTxByHash cache1 txHash = (cache1, false).
Proof.
  intros cache1.
  assert (GetByTxHash cache1 txHash = None) as Hgone.
  { subst cache1. unfold RemoveTxByHash, GetByTxHash, txByHashMap.getTx.
    pose proof (removeTx_lookup (txByHash cache) txHash txHash) as Hrm.
    pose proof (removeTx_found (txByHash cache) txHash) as Hfd.
    destruct (txByHashMap.removeTx (txByHash cache) txHash) as [byHash [tx|]];
      cbn [fst snd] in *.
    - destruct (txListBySenderMap.removeTransactionsWithLowerOrEqualNonceReturnHashes
                  (txListBySender cache) tx) as [bySender evicted].
      cbn [fst txByHash setTxByHash]. rewrite RemoveTxsBulk_nil_or, Hrm.
      destruct (decide (txHash ∈ evicted)); [done|]. by rewrite decide_True.
    - cbn [fst txByHash setTxByHash]. rewrite Hrm. by rewrite decide_True. }
  split; [done|].
  unfold RemoveTxByHash. unfold GetByTxHash, txByHashMap.getTx in Hgone.
  rewrite removeTx_absent by done. by destruct cache1.
Qed.

(** X12.  [RemoveTxByHash] touches one sender only.  Configuration, host and
    flag stay; with [tx] the transaction found, the list of every other
    sender is as it was; and a hash other than the given one that none of
    the transactions of the sender's list carries answers as before. *)
Theorem RemoveTxByHash_touches_one_sender cache txHash tx :
  GetByTxHash cache txHash = Some tx →
  let cache' := (RemoveTxByHash cache txHash).1 in
  config cache' = config cache
  ∧ host cache' = host cache
  ∧ isEvictionInProgress cache' = isEvictionInProgress cache
  ∧ (∀ s, s ≠ GetSndAddr tx →
          GetTransactionsPoolForSender cache' s = GetTransactionsPoolForSender cache s)
  ∧ (∀ h, h ≠ txHash →
          (∀ x, x ∈ default [] (GetTransactionsPoolForSender cache (GetSndAddr tx)) →
                TxHash x ≠ h) →
          GetByTxHash cache' h = GetByTxHash cache h).
Proof.
  intros E cache'. subst cache'.
  unfold GetByTxHash, txByHashMap.getTx, GetTransactionsPoolForSender,
    txListBySenderMap.getListForSender in *.
  pose proof (removeTx_lookup (txByHash cache) txHash) as Hrm.
  pose proof (removeTx_found (txByHash cache) txHash) as Hfd. rewrite E in Hfd.
  pose proof (bySender_removeLowerOrEqual_spec (txListBySender cache) tx) as [Hev _].
  unfold RemoveTxByHash.
  destruct (txByHashMap.removeTx (txByHash cache) txHash) as [byHash found].
  cbn [fst snd] in Hrm, Hfd. subst found.
  assert (∀ s, s ≠ GetSndAddr tx →
            txListBySenderMap.backingMap
              (txListBySenderMap.removeTransactionsWithLowerOrEqualNonceReturnHashes
                 (txListBySender cache) tx).1 !! s
            = txListBySenderMap.backingMap (txListBySender cache) !! s) as Hothers.
  { intros s Hne.
    unfold txListBySenderMap.removeTransactionsWithLowerOrEqualNonceReturnHashes,
      txListBySenderMap.getListForSender,
      txListForSender.removeTransactionsWithLowerOrEqualNonceReturnHashes.
    destruct (txListBySenderMap.backingMap (txListBySender cache) !! GetSndAddr tx)
      as [items|]; [|done].
    cbn [fst]. rewrite removeSenderIfEmpty_lookup, decide_False by done.
    unfold txListBySenderMap.setList. cbn. by rewrite lookup_insert_ne. }
  destruct (txListBySenderMap.removeTransactionsWithLowerOrEqualNonceReturnHashes
              (txListBySender cache) tx) as [bySender evicted].
  cbn [fst snd txByHash txListBySender setTxByHash setTxListBySender] in *.
  split; [done|]. split; [done|]. split; [done|]. split; [exact Hothers|].
  intros h Hne Hfresh. rewrite RemoveTxsBulk_nil_or, Hrm.
  rewrite decide_False; [by rewrite decide_False|].
  rewrite Hev. intros (x & Hx & [_ Hin]%list_elem_of_filter)%list_elem_of_fmap.
  by apply (Hfresh x Hin).
Qed.

Lemma RemoveTxByHash_touches_one_sender_witness :
  GetByTxHash (RemoveTxByHash scenarioSameNonce "a2").1 "b1"
  = GetByTxHash scenarioSameNonce "b1".
Proof.
  refine (proj2 (proj2 (proj2 (proj2
            (RemoveTxByHash_touches_one_sender scenarioSameNonce "a2"
               (precomputeFields testHost (createTx "a2" "alice" 2 9 128)) _))))
            "b1" _ _).
  - vm_compute. reflexivity.
  - discriminate.
  - intros x Hx.
    assert (default [] (GetTransactionsPoolForSender scenarioSameNonce "alice")
            = [precomputeFields testHost (createTx "a2" "alice" 2 9 128)]) as Hl
      by (vm_compute; reflexivity).
    change (GetSndAddr (precomputeFields testHost (createTx "a2" "alice" 2 9 128)))
      with "alice" in Hx.
    rewrite Hl in Hx. apply list_elem_of_singleton in Hx as ->. discriminate.
Defined.

(** * Counters of the reached states *)

Lemma sizeOfAll_insert m h tx :
  m !! h = None → sizeOfAll (<[h := tx]> m) = (Size tx + sizeOfAll m)%Z.
Proof.
  intros Hn. unfold sizeOfAll.
  apply (map_fold_insert_L (λ _ tx acc, Size tx + acc)%Z); [|done].
  intros. lia.
Qed.

Lemma sizeOfAll_delete m h tx :
  m !! h = Some tx → sizeOfAll (delete h m) = (sizeOfAll m - Size tx)%Z.
Proof.
  intros Hs. rewrite <- (insert_delete_id m h tx Hs) at 2.
  rewrite sizeOfAll_insert by apply lookup_delete_eq. lia.
Qed.

Lemma addTx_counted m tx :
  byHashCounted m → byHashCounted (txByHashMap.addTx m tx).1.
Proof.
  intros [Hc Hb]. unfold txByHashMap.addTx.
  destruct (txByHashMap.backingMap m !! TxHash tx) eqn:E; [done|].
  split; simpl.
  - rewrite map_size_insert_None by done. lia.
  - rewrite sizeOfAll_insert by done. lia.
Qed.

Lemma removeTx_counted m h :
  byHashCounted m → byHashCounted (txByHashMap.removeTx m h).1.
Proof.
  intros [Hc Hb]. unfold txByHashMap.removeTx.
  destruct (txByHashMap.backingMap m !! h) as [tx|] eqn:E; [|done].
  split; simpl.
  - rewrite map_size_delete_Some by (by rewrite E).
    assert (size (txByHashMap.backingMap m) ≠ 0)
      by (intros ?%map_size_empty_inv; by rewrite H in E).
    lia.
  - rewrite (sizeOfAll_delete _ _ tx) by done. lia.
Qed.

Lemma RemoveTxsBulk_counted hs : ∀ m,
  byHashCounted m → byHashCounted (txByHashMap.RemoveTxsBulk m hs).1.
Proof.
  induction hs as [|h hs IH]; intros m Hm; simpl; [done|].
  pose proof (removeTx_counted m h Hm) as H1.
  destruct (txByHashMap.removeTx m h) as [m1 removed].
  specialize (IH m1 H1).
  by destruct (txByHashMap.RemoveTxsBulk m1 hs) as [m2 n].
Qed.

Lemma RemoveTxsBulk_nil_or_counted m evicted :
  byHashCounted m →
  byHashCounted (match evicted with
                 | [] => m
                 | _ :: _ => (txByHashMap.RemoveTxsBulk m evicted).1
                 end).
Proof. intros Hm. destruct evicted; [done|]. by apply RemoveTxsBulk_counted. Qed.

Lemma addTxReturnEvicted_counted c m tx :
  bySenderCounted c m → bySenderCounted c (txListBySenderMap.addTxReturnEvicted m tx).1.1.
Proof.
  intros [Hc Hl]. rewrite addTxReturnEvicted_spec. cbn [fst]. split; simpl; [|done].
  destruct (txListBySenderMap.backingMap m !! GetSndAddr tx) eqn:E.
  - by rewrite map_size_insert_Some by (by rewrite E).
  - rewrite map_size_insert_None by done. lia.
Qed.

Lemma removeSenderIfEmpty_setList_counted c m s items kept :
  txListBySenderMap.backingMap m !! s = Some items →
  bySenderCounted c m →
  bySenderCounted c
    (txListBySenderMap.removeSenderIfEmpty (txListBySenderMap.setList m s kept) s).
Proof.
  intros E [Hc Hl].
  unfold txListBySenderMap.removeSenderIfEmpty, txListBySenderMap.setList.
  cbn [txListBySenderMap.backingMap txListBySenderMap.counter txListBySenderMap.constraints].
  rewrite lookup_insert_eq.
  assert (size (txListBySenderMap.backingMap m) ≠ 0)
    by (intros ?%map_size_empty_inv; by rewrite H in E).
  destruct kept as [|x kept]; (split; simpl; [|done]).
  - rewrite delete_insert_eq, map_size_delete_Some by (by rewrite E). lia.
  - by rewrite map_size_insert_Some by (by rewrite E).
Qed.

Lemma removeLowerOrEqual_counted c m tx :
  bySenderCounted c m →
  bySenderCounted c
    (txListBySenderMap.removeTransactionsWithLowerOrEqualNonceReturnHashes m tx).1.
Proof.
  intros Hm.
  unfold txListBySenderMap.removeTransactionsWithLowerOrEqualNonceReturnHashes,
    txListBySenderMap.getListForSender,
    txListForSender.removeTransactionsWithLowerOrEqualNonceReturnHashes.
  destruct (txListBySenderMap.backingMap m !! GetSndAddr tx) as [items|] eqn:E; [|done].
  cbn [fst]. by apply (removeSenderIfEmpty_setList_counted c m _ items).
Qed.

Lemma removeHigherOrEqual_counted c m sender nonce :
  bySenderCounted c m →
  bySenderCounted c (txListBySenderMap.removeTransactionsWithHigherOrEqualNonce m sender nonce).
Proof.
  intros Hm.
  unfold txListBySenderMap.removeTransactionsWithHigherOrEqualNonce,
    txListBySenderMap.getListForSender.
  destruct (txListBySenderMap.backingMap m !! sender) as [items|] eqn:E; [|done].
  by apply (removeSenderIfEmpty_setList_counted c m _ items).
Qed.

Lemma removeLowestToEvict_counted c lowest m :
  bySenderCounted c m → bySenderCounted c (removeLowestToEvict m lowest).
Proof.
  unfold removeLowestToEvict. generalize (map_to_list lowest) as entries.
  intros entries. revert m.
  induction entries as [|e entries IH]; intros m Hm; simpl; [done|].
  by apply IH, removeHigherOrEqual_counted.
Qed.

Lemma evictTransactions_counted cache txs :
  countersAgree cache → countersAgree (evictTransactions cache txs).
Proof.
  intros [Hh Hs]. unfold evictTransactions, countersAgree. simpl. split.
  - by apply RemoveTxsBulk_counted.
  - by apply removeLowestToEvict_counted.
Qed.

Lemma evictionPasses_counted fuel : ∀ cache h journal,
  countersAgree cache → countersAgree (evictionPasses fuel cache h journal).1.
Proof.
  induction fuel as [|fuel IH]; intros cache h journal Hc; simpl; [done|].
  destruct (isCapacityExceeded cache); [|done].
  destruct (collectTransactionsToEvict _ h []) as [[|tx txs] h']; [done|].
  by apply IH, evictTransactions_counted.
Qed.

Lemma doEviction_counted cache :
  countersAgree cache → countersAgree (doEviction cache).1.
Proof.
  intros Hc. unfold doEviction.
  destruct (isEvictionInProgress cache); [done|].
  destruct (negb (isCapacityExceeded cache)); [done|].
  destruct (negb (isCapacityExceeded (setEvictionInProgress cache true))); [done|].
  unfold evictLeastLikelyToSelectTransactions.
  pose proof (evictionPasses_counted
                (S (heapTotal (initialHeap (bunchesOf (setEvictionInProgress cache true)))))
                (setEvictionInProgress cache true)
                (initialHeap (bunchesOf (setEvictionInProgress cache true)))
                {| numEvicted := 0; numEvictedByPass := [] |} Hc) as H.
  by destruct (evictionPasses _ _ _ _) as [cache2 journal].
Qed.

Lemma evictBeforeAdd_counted cache :
  countersAgree cache → countersAgree (evictBeforeAdd cache).
Proof.
  intros Hc. unfold evictBeforeAdd.
  destruct (EvictionEnabled (config cache)); [|done]. by apply doEviction_counted.
Qed.

Lemma AddTx_counted cache tx :
  countersAgree cache → countersAgree (AddTx cache tx).1.
Proof.
  intros Hc. destruct tx as [tx|]; [|done].
  destruct (Tx tx) as [t|] eqn:Ht; [|by unfold AddTx; rewrite Ht].
  rewrite (AddTx_unfold cache tx t Ht). cbv zeta. cbn [fst].
  destruct (evictBeforeAdd_counted cache Hc) as [Hh Hs].
  split; simpl.
  - by apply RemoveTxsBulk_nil_or_counted, addTx_counted.
  - by apply addTxReturnEvicted_counted.
Qed.

Lemma RemoveTxByHash_counted cache txHash :
  countersAgree cache → countersAgree (RemoveTxByHash cache txHash).1.
Proof.
  intros [Hh Hs]. unfold RemoveTxByHash.
  pose proof (removeTx_counted (txByHash cache) txHash Hh) as H1.
  destruct (txByHashMap.removeTx (txByHash cache) txHash) as [byHash [tx|]];
    cbn [fst] in H1; [|by split].
  pose proof (removeLowerOrEqual_counted _ (txListBySender cache) tx Hs) as H2.
  destruct (txListBySenderMap.removeTransactionsWithLowerOrEqualNonceReturnHashes
              (txListBySender cache) tx) as [bySender evicted].
  cbn [fst] in *. split; simpl; [|done].
  by apply RemoveTxsBulk_nil_or_counted.
Qed.

Lemma reached_caches_counted config host calls :
  countersAgree (runCacheCalls (NewTxCache config host) calls).
Proof.
  assert (countersAgree (NewTxCache config host)) as H0 by done.
  revert H0. generalize (NewTxCache config host) as cache.
  induction calls as [|c calls IH]; intros cache Hc; simpl; [done|].
  apply IH. destruct c as [tx|txHash]; simpl.
  - by apply AddTx_counted.
  - by apply RemoveTxByHash_counted.
Qed.

Lemma runCacheCalls_config_host calls : ∀ cache,
  config (runCacheCalls cache calls) = config cache
  ∧ host (runCacheCalls cache calls) = host cache.
Proof.
  induction calls as [|c calls IH]; intros cache; simpl; [done|].
  destruct (IH (runCacheCall cache c)) as [-> ->].
  destruct c as [[tx|]|txHash]; cbn [runCacheCall]; [|done|].
  - destruct (Tx tx) as [t|] eqn:Ht; [|by unfold AddTx; rewrite Ht].
    rewrite (AddTx_unfold cache tx t Ht). cbv zeta. cbn [fst].
    apply evictBeforeAdd_config_host.
  - unfold RemoveTxByHash.
    destruct (txByHashMap.removeTx (txByHash cache) txHash) as [byHash [tx|]]; [|done].
    by destruct (txListBySenderMap.removeTransactionsWithLowerOrEqualNonceReturnHashes
                   (txListBySender cache) tx) as [bySender evicted].
Qed.

(** X13.  The counters say what the maps hold.  In every state that [AddTx]
    and [RemoveTxByHash] (with the evictions [AddTx] starts) reach from a new
    cache, [CountTx] is the number of hashes of the map by hash,
    [CountSenders] the number of lists of the map by sender, and [NumBytes]
    the sum of the sizes of the transactions of the map by hash (zero when
    that sum is negative). *)
Theorem counters_say_what_the_maps_hold config host calls :
  let cache := runCacheCalls (NewTxCache config host) calls in
  CountTx cache = Z.of_nat (size (txByHashMap.backingMap (txByHash cache)))
  ∧ CountSenders cache = Z.of_nat (size (txListBySenderMap.backingMap (txListBySender cache)))
  ∧ NumBytes cache = Z.max 0 (sizeOfAll (txByHashMap.backingMap (txByHash cache))).
Proof.
  intros cache. destruct (reached_caches_counted config host calls) as [[Hc Hb] [Hs _]].
  fold cache in Hc, Hb, Hs.
  unfold CountTx, CountSenders, NumBytes, GetUint64. rewrite Hc, Hb, Hs.
  split; [lia|]. split; [lia|done].
Qed.

(** X14.  The limits of a sender after an addition.  In every state reached
    from a new cache, after [AddTx] of a transaction with a handler the list
    of its sender is empty or within the limits of the configuration: at most
    [CountPerSenderThreshold] transactions and at most
    [NumBytesPerSenderThreshold] bytes. *)
Theorem AddTx_leaves_sender_within_limits config host calls tx t :
  Tx tx = Some t →
  let cache := runCacheCalls (NewTxCache config host) calls in
  let cache' := (AddTx cache (Some tx)).1 in
  let items :=
    default [] (GetTransactionsPoolForSender cache' (GetSndAddr (precomputeFields host tx))) in
  items = []
  ∨ ((Z.of_nat (length items) ≤ CountPerSenderThreshold config)%Z
     ∧ (txListForSender.totalBytes items ≤ NumBytesPerSenderThreshold config)%Z).
Proof.
  intros Ht cache cache' items.
  destruct (runCacheCalls_config_host calls (NewTxCache config host)) as [Hcfg Hhost].
  fold cache in Hcfg, Hhost. cbn in Hcfg, Hhost.
  destruct (evictBeforeAdd_counted cache (reached_caches_counted config host calls))
    as [_ [_ Hlim]].
  destruct (evictBeforeAdd_config_host cache) as [Hcfg1 _].
  rewrite Hcfg1, Hcfg in Hlim.
  subst items cache'. rewrite (AddTx_unfold cache tx t Ht). cbv zeta. cbn [fst].
  rewrite Hhost. rewrite addTxReturnEvicted_spec. cbn [fst snd].
  unfold GetTransactionsPoolForSender, txListBySenderMap.getListForSender.
  cbn [txListBySender setTxByHash setTxListBySender txListBySenderMap.backingMap].
  rewrite lookup_insert_eq. cbn [default from_option id].
  rewrite Hlim.
  destruct (list_AddTx_kept (getSenderConstraints config)
              (default [] (txListBySenderMap.backingMap (txListBySender (evictBeforeAdd cache))
                             !! GetSndAddr (precomputeFields host tx)))
              (precomputeFields host tx)) as [_ [He|Hk]]; [by left|right].
  unfold txListForSender.isCapacityExceeded, txListForSender.countTx in Hk.
  apply orb_false_iff in Hk as [H1 H2]. cbn in H1, H2. split; lia.
Qed.

Lemma AddTx_leaves_sender_within_limits_witness :
  let config := testConfig true maxUint32 4 maxUint32 3 in
  let calls := [CallAddTx (Some (createTx "a1" "alice" 1 1 128));
                CallAddTx (Some (createTx "a2" "alice" 2 1 128));
                CallAddTx (Some (createTx "a3" "alice" 3 1 128))] in
  let tx := createTx "a4" "alice" 4 1 128 in
  let cache' := (AddTx (runCacheCalls (NewTxCache config testHost) calls) (Some tx)).1 in
  let items := default [] (GetTransactionsPoolForSender cache' "alice") in
  items = []
  ∨ ((Z.of_nat (length items) ≤ CountPerSenderThreshold config)%Z
     ∧ (txListForSender.totalBytes items ≤ NumBytesPerSenderThreshold config)%Z).
Proof.
  intros config calls tx.
  exact (AddTx_leaves_sender_within_limits config testHost calls tx _ eq_refl).
Defined.

(** X15.  The list [GetTransactionsPoolForSender] answers.  In every state
    reached from a new cache, the list answered for a sender holds
    transactions of that sender only, in ascending order of nonce. *)
Theorem GetTransactionsPoolForSender_ascending config host calls sender :
  let items :=
    default [] (GetTransactionsPoolForSender
                  (runCacheCalls (NewTxCache config host) calls) sender) in
  Forall (λ tx, GetSndAddr tx = sender) items
  ∧ StronglySorted (λ a b, (GetNonce a ≤ GetNonce b)%N) items.
Proof.
  intros items.
  pose proof (reached_caches_ordered config host calls) as H.
  rewrite senderListsOrdered_pool in H. exact (H sender).
Qed.

(** * Further properties of the wrapper, of evictions and of additions *)

Lemma runWrapperCall_consumed w c a :
  consumedBalanceOf (runWrapperCall w c) a = (consumedBalanceOf w a + chargedBy a c)%Z.
Proof.
  destruct c as [address|address|tx|tx]; cbn [runWrapperCall chargedBy].
  - rewrite getAccountRecord_consumed. lia.
  - unfold getNonce.
    pose proof (getAccountRecord_consumed w address a) as H.
    destruct (getAccountRecord w address) as [r w']. cbn [snd] in *. lia.
  - rewrite accumulateConsumedBalance_consumed. lia.
  - rewrite detectWillFeeExceedBalance_consumed. lia.
Qed.

(** X16.  The consumed balance after a run.  Whatever calls a selection makes
    on the wrapper, the consumed balance of an address afterwards is what it
    was before plus, over the calls of [accumulateConsumedBalance] of the
    run, the transferred values of the transactions the address sent and the
    fees of the transactions it pays for; on a new wrapper it is that sum.
    Reading nonces and asking the gate charge nothing. *)
Theorem consumed_balance_after_a_run calls : ∀ w address,
  consumedBalanceOf (runWrapperCalls w calls) address
  = (consumedBalanceOf w address + chargedByAll address calls)%Z.
Proof.
  induction calls as [|c calls IH]; intros w address;
    cbn [runWrapperCalls foldl chargedByAll foldr]; [lia|].
  fold (runWrapperCalls (runWrapperCall w c) calls). fold (chargedByAll address calls).
  rewrite IH, runWrapperCall_consumed. lia.
Qed.

(** Of a list ascending by nonce, the transactions below a nonce are a
    prefix. *)
Lemma filter_below_prefix nonce items :
  ascendingNonces items →
  filter (λ x, (GetNonce x < nonce)%N) items `prefix_of` items.
Proof.
  unfold ascendingNonces. induction 1 as [|x items Hs IH Hx].
  - done.
  - rewrite filter_cons. destruct (decide (GetNonce x < nonce)%N) as [Hlt|Hge].
    + by apply prefix_cons.
    + assert (filter (λ y, (GetNonce y < nonce)%N) items = []) as ->.
      { clear IH Hs. induction items as [|y items IH]; [done|].
        apply Forall_cons in Hx as [Hy Hx]. rewrite filter_cons.
        rewrite decide_False by lia. by apply IH. }
      apply prefix_nil.
Qed.

Lemma evictTransactions_prefix cache txs s :
  senderListsOrdered cache →
  default [] (GetTransactionsPoolForSender (evictTransactions cache txs) s)
  `prefix_of` default [] (GetTransactionsPoolForSender cache s).
Proof.
  rewrite senderListsOrdered_pool. intros Hc.
  unfold GetTransactionsPoolForSender, txListBySenderMap.getListForSender, evictTransactions in *.
  cbn [txListBySender setTxByHash setTxListBySender].
  rewrite removeLowestToEvict_pool.
  destruct (lowestToEvictBySender txs !! s) as [nonce|]; [|done].
  apply filter_below_prefix, Hc.
Qed.

Lemma evictionPasses_prefix fuel : ∀ cache h journal s,
  senderListsOrdered cache →
  default [] (GetTransactionsPoolForSender (evictionPasses fuel cache h journal).1 s)
  `prefix_of` default [] (GetTransactionsPoolForSender cache s).
Proof.
  induction fuel as [|fuel IH]; intros cache h journal s Hc; simpl; [done|].
  destruct (isCapacityExceeded cache); [|done].
  destruct (collectTransactionsToEvict _ h []) as [[|tx txs] h']; [done|].
  etrans; [apply IH; by apply evictTransactions_ordered|].
  by apply evictTransactions_prefix.
Qed.

(** X17.  Eviction takes from the high end.  On a cache whose per-sender
    lists are keyed by sender and ascend by nonce, the list of every sender
    after [doEviction] is a prefix of its list before: what an eviction
    takes from a sender are its last transactions, and no transaction goes
    while one that follows it in the list stays. *)
Theorem doEviction_keeps_prefixes cache :
  senderListsOrdered cache →
  ∀ s, default [] (GetTransactionsPoolForSender (doEviction cache).1 s)
       `prefix_of` default [] (GetTransactionsPoolForSender cache s).
Proof.
  intros Hc s. unfold doEviction.
  destruct (isEvictionInProgress cache) eqn:Hflag; [done|].
  destruct (isCapacityExceeded cache) eqn:E; simpl; [|done].
  rewrite isCapacityExceeded_flag, E. simpl.
  unfold evictLeastLikelyToSelectTransactions.
  pose proof (evictionPasses_prefix
    (S (heapTotal (initialHeap (bunchesOf (setEvictionInProgress cache true)))))
    (setEvictionInProgress cache true)
    (initialHeap (bunchesOf (setEvictionInProgress cache true)))
    {| numEvicted := 0; numEvictedByPass := [] |} s Hc) as H.
  by destruct (evictionPasses _ _ _ _) as [cache2 journal].
Qed.

Lemma doEviction_keeps_prefixes_witness :
  default [] (GetTransactionsPoolForSender (doEviction scenarioWorstSender).1 "alice")
  `prefix_of` default [] (GetTransactionsPoolForSender scenarioWorstSender "alice").
Proof.
  apply (doEviction_keeps_prefixes scenarioWorstSender).
  apply (bool_decide_unpack _). vm_compute. exact I.
Defined.

(** X18.  What [AddTx] does after its eviction step.  With [cache1] the
    state after the optional eviction and [target] the list of the sender
    with the transaction in its place (the list itself when it has a
    transaction of that nonce and hash), there is a tail [cut] of [target]
    such that the list of the sender is [target] without [cut]; the lists of
    the other senders are those of [cache1]; and the map by hash answers
    nothing for the hashes of [cut], and for every other hash what it
    answered in [cache1], or the transaction for its own hash when that was
    unknown. *)
Theorem AddTx_after_its_eviction_step cache tx t :
  Tx tx = Some t →
  let tx' := precomputeFields (host cache) tx in
  let sender := GetSndAddr tx' in
  let cache1 := evictBeforeAdd cache in
  let items1 := default [] (GetTransactionsPoolForSender cache1 sender) in
  let target := if txListForSender.isPresent tx' items1 then items1
                else txListForSender.insertInOrder tx' items1 in
  let cache' := (AddTx cache (Some tx)).1 in
  ∃ cut,
    target = default [] (GetTransactionsPoolForSender cache' sender) ++ cut
    ∧ (∀ s, s ≠ sender →
            GetTransactionsPoolForSender cache' s = GetTransactionsPoolForSender cache1 s)
    ∧ (∀ h, GetByTxHash cache' h =
            if decide (h ∈ TxHash <$> cut) then None
            else match GetByTxHash cache1 h with
                 | Some x => Some x
                 | None => if decide (h = TxHash tx') then Some tx' else None
                 end).
Proof.
  intros Ht tx' sender cache1 items1 target cache'.
  subst cache'. rewrite (AddTx_unfold cache tx t Ht). cbv zeta.
  fold tx'. fold cache1.
  rewrite addTxReturnEvicted_spec. cbn [fst snd].
  unfold GetTransactionsPoolForSender, txListBySenderMap.getListForSender,
    GetByTxHash, txByHashMap.getTx in *.
  cbn [txByHash txListBySender setTxByHash setTxListBySender txListBySenderMap.backingMap].
  fold sender. fold items1.
  assert (∃ cut,
    target = (txListForSender.AddTx (txListBySenderMap.constraints (txListBySender cache1))
                items1 tx').1.1 ++ cut
    ∧ ∀ h, h ∈ (txListForSender.AddTx (txListBySenderMap.constraints (txListBySender cache1))
                  items1 tx').2 ↔ ∃ x, x ∈ cut ∧ TxHash x = h) as (cut & Hcut & Hev).
  { subst target. unfold txListForSender.AddTx.
    destruct (txListForSender.isPresent tx' items1).
    - destruct (applySizeConstraints_spec
                  (txListBySenderMap.constraints (txListBySender cache1)) items1)
        as (removed & Hl & He & _).
      destruct (txListForSender.applySizeConstraints _ items1) as [kept evicted].
      exists removed. by split.
    - destruct (applySizeConstraints_spec
                  (txListBySenderMap.constraints (txListBySender cache1))
                  (txListForSender.insertInOrder tx' items1))
        as (removed & Hl & He & _).
      destruct (txListForSender.applySizeConstraints _ (txListForSender.insertInOrder tx' items1))
        as [kept evicted].
      exists removed. by split. }
  exists cut. split; [|split].
  - rewrite lookup_insert_eq. exact Hcut.
  - intros s Hne. by rewrite lookup_insert_ne.
  - intros h. rewrite RemoveTxsBulk_nil_or, addTx_lookup.
    assert (h ∈ TxHash <$> cut ↔ ∃ x, x ∈ cut ∧ TxHash x = h) as Hfmap.
    { rewrite list_elem_of_fmap. split; intros (x & H1 & H2); eauto. }
    destruct (decide (h ∈ TxHash <$> cut)) as [Hin|Hout].
    + by rewrite decide_True by (by apply Hev, Hfmap).
    + by rewrite decide_False by (by rewrite Hev, <- Hfmap).
Qed.

Lemma AddTx_after_its_eviction_step_witness :
  let tx := createTx "hash-4" "alice" 4 1 128 in
  let tx' := precomputeFields testHost tx in
  let items1 := default [] (GetTransactionsPoolForSender (evictBeforeAdd scenarioS7) "alice") in
  let cache' := (AddTx scenarioS7 (Some tx)).1 in
  ∃ cut,
    (if txListForSender.isPresent tx' items1 then items1
     else txListForSender.insertInOrder tx' items1)
    = default [] (GetTransactionsPoolForSender cache' "alice") ++ cut
    ∧ GetTransactionsPoolForSender cache' "bob"
      = GetTransactionsPoolForSender (evictBeforeAdd scenarioS7) "bob".
Proof.
  intros tx tx' items1 cache'.
  destruct (AddTx_after_its_eviction_step scenarioS7 tx _ eq_refl) as (cut & Hcut & Hothers & _).
  exists cut. split; [exact Hcut|]. apply Hothers. discriminate.
Defined.
